(** * pyimof.util: finite differences, warping, pyramids and the coarse-to-fine driver

    A shallow embedding of [pyimof/util.py].  Samples are exact rationals
    ([Q], compared with [==]): the module's grids are "real-valued" and every
    constant it introduces (0.5, 2.0, the shape ratios) is a rational.  A
    numpy array is its shape together with an indexing function.  Python
    exceptions are values of [exn]; a computation that may raise returns a
    [result]. *)

From Stdlib Require Import String Bool List Arith ZArith QArith Qround Lia Lqa.
Import ListNotations.

Local Open Scope nat_scope.

(** ** Exceptions and the error monad *)

Inductive exn : Type :=
| ValueError (msg : string)
| IndexError
| ZeroDivisionError
| SolverFailure (msg : string).

Definition result (A : Type) : Type := (exn + A)%type.

Definition ret {A : Type} (a : A) : result A := inr a.

Definition raise {A : Type} (e : exn) : result A := inl e.

Definition bind {A B : Type} (m : result A) (k : A -> result B) : result B :=
  match m with
  | inl e => inl e
  | inr a => k a
  end.

Notation "x <- m ;; k" := (bind m (fun x => k))
  (at level 61, m at next level, right associativity).
Notation "' ( x , y ) <- m ;; k" := (bind m (fun xy => let '(x, y) := xy in k))
  (at level 61, x name, y name, m at next level, right associativity).

(** ** Arrays *)

(** [shape] is numpy's shape tuple; [item a ix] is the sample at the
    multi-index [ix] (meaningful for indices inside the shape). *)
Record ndarray : Type := mkarray { shape : list nat; item : list nat -> Q }.

Definition ndim (a : ndarray) : nat := length (shape a).

Definition get2 (a : ndarray) (i j : nat) : Q := item a [i; j].

Definition array2 (nl nc : nat) (f : nat -> nat -> Q) : ndarray :=
  {| shape := [nl; nc];
     item := fun ix => match ix with [i; j] => f i j | _ => 0%Q end |}.

(** A 2D array written out row by row. *)
Definition of_rows (rows : list (list Q)) : ndarray :=
  array2 (length rows) (length (hd [] rows))
         (fun i j => nth j (nth i rows []) 0%Q).

Definition to_rows (a : ndarray) : list (list Q) :=
  match shape a with
  | [nl; nc] => map (fun i => map (fun j => get2 a i j) (seq 0 nc)) (seq 0 nl)
  | _ => []
  end.

(** [np.zeros_like]. *)
Definition zeros_like (a : ndarray) : ndarray :=
  {| shape := shape a; item := fun _ => 0%Q |}.

(** Python's index normalisation on an axis of length [len]: a negative index
    counts from the end, anything outside [-len, len) raises IndexError. *)
Definition index (len : nat) (k : Z) : result nat :=
  if ((0 <=? k) && (k <? Z.of_nat len))%Z then ret (Z.to_nat k)
  else if ((- Z.of_nat len <=? k) && (k <? 0))%Z then ret (Z.to_nat (Z.of_nat len + k))
  else raise IndexError.

(** Every sample inside the [nl] x [nc] window equals [c]. *)
Definition constant_on (nl nc : nat) (a : ndarray) (c : Q) : Prop :=
  forall i j, i < nl -> j < nc -> (get2 a i j == c)%Q.

(** ** forward_diff *)

(** The source works on a copy of [p] with slice updates; each update is one
    [let] below.  Arrays with more than two axes are outside this model. *)
Definition forward_diff (p : ndarray) : result (ndarray * ndarray) :=
  match shape p with
  | [nl; nc] =>
      (* p_x = p.copy() *)
      let p_x := get2 p in
      (* p_x[:, :-1] -= p[:, 1:] *)
      let p_x := fun i j => if S j <? nc then (p_x i j - get2 p i (S j))%Q else p_x i j in
      (* p_x[:, -1] = p_x[:, -2] *)
      src <- index nc (-2) ;;
      dst <- index nc (-1) ;;
      let p_x := fun i j => if j =? dst then p_x i src else p_x i j in
      (* p_y = p.copy() *)
      let p_y := get2 p in
      (* p_y[:-1, :] -= p[1:, :] *)
      let p_y := fun i j => if S i <? nl then (p_y i j - get2 p (S i) j)%Q else p_y i j in
      (* p_y[-1, :] = p_y[-2, :] *)
      src <- index nl (-2) ;;
      dst <- index nl (-1) ;;
      let p_y := fun i j => if i =? dst then p_y src j else p_y i j in
      ret (array2 nl nc p_x, array2 nl nc p_y)
  | _ => raise IndexError
  end.

(** ** warp *)

(** [np.meshgrid(np.arange(nl) - 0.5, np.arange(nc) - 0.5, indexing='ij')]:
    it returns [(y, x)] with [y[i, j] = i - 0.5] and [x[i, j] = j - 0.5]. *)
Definition arange_minus_half (k : nat) : Q := (inject_Z (Z.of_nat k) - (1 # 2))%Q.

Definition meshgrid_ij (nl nc : nat) : ndarray * ndarray :=
  (array2 nl nc (fun i _ => arange_minus_half i),
   array2 nl nc (fun _ j => arange_minus_half j)).

(** Elementwise [a + b].  Operands of one shape are modelled; numpy would
    also stretch an axis of length 1, which no caller here relies on. *)
Definition add (a b : ndarray) : result ndarray :=
  if list_eq_dec Nat.eq_dec (shape a) (shape b)
  then ret {| shape := shape a; item := fun ix => (item a ix + item b ix)%Q |}
  else raise (ValueError "operands could not be broadcast together").

(** [scipy.ndimage.map_coordinates(I, [ys, xs], order=1, mode='nearest')],
    the library routine [warp] ends in, written out from its definition: a
    coordinate is first brought into [0, len - 1] (mode 'nearest'), the two
    samples around it are weighted linearly, and a tap that falls outside the
    axis is moved to the nearest valid index. *)
Definition map_coordinate (len : nat) (c : Q) : Q :=
  if Qle_bool 0 c
  then if Qle_bool c (inject_Z (Z.of_nat len - 1)) then c
       else inject_Z (Z.of_nat len - 1)
  else 0%Q.

Definition edge_index (len : nat) (k : Z) : nat :=
  if len <=? 1 then 0
  else if (k <? 0)%Z then 0
  else if (Z.of_nat len <=? k)%Z then len - 1
  else Z.to_nat k.

Definition interp_linear (I : ndarray) (nl nc : nat) (y x : Q) : Q :=
  let cy := map_coordinate nl y in
  let cx := map_coordinate nc x in
  let sy := Qfloor cy in
  let sx := Qfloor cx in
  let ty := (cy - inject_Z sy)%Q in
  let tx := (cx - inject_Z sx)%Q in
  let tap := fun a b => get2 I (edge_index nl (sy + a)) (edge_index nc (sx + b)) in
  ((1 - ty) * (1 - tx) * tap 0%Z 0%Z + (1 - ty) * tx * tap 0%Z 1%Z
   + ty * (1 - tx) * tap 1%Z 0%Z + ty * tx * tap 1%Z 1%Z)%Q.

Definition map_coordinates (I ys xs : ndarray) : result ndarray :=
  match shape I with
  | [nl; nc] =>
      if list_eq_dec Nat.eq_dec (shape ys) (shape xs)
      then ret {| shape := shape ys;
                  item := fun ix => interp_linear I nl nc (item ys ix) (item xs ix) |}
      else raise (ValueError "coordinate arrays of different shapes")
  | _ => raise (ValueError "invalid shape for coordinate array")
  end.

(** [warp(I, u, v, x=None, y=None, mode='nearest')] with the default mode. *)
Definition warp (I u v : ndarray) (x y : option ndarray) : result ndarray :=
  '(y, x) <- match x, y with
             | Some x, Some y => ret (y, x)
             | _, _ =>
                 match shape I with
                 | [nl; nc] => ret (meshgrid_ij nl nc)
                 | _ => raise (ValueError "not enough values to unpack")
                 end
             end ;;
  yv <- add y v ;;
  xu <- add x u ;;
  map_coordinates I yv xu.

(** ** div *)

(** Backward differences of [p1] along the columns and of [p2] along the
    rows, summed; the slice updates are those of the source, one per [let]. *)
Definition div (p1 p2 : ndarray) : result ndarray :=
  match shape p1, shape p2 with
  | [nl1; nc1], [nl2; nc2] =>
      (* p1_x = p1.copy() *)
      let p1_x := get2 p1 in
      (* p1_x[:, 1:] -= p1[:, :-1] *)
      let p1_x := fun i j => if 1 <=? j then (p1_x i j - get2 p1 i (j - 1))%Q else p1_x i j in
      (* p1_x[:, 0] = p1_x[:, 1] *)
      src <- index nc1 1 ;;
      dst <- index nc1 0 ;;
      let p1_x := fun i j => if j =? dst then p1_x i src else p1_x i j in
      (* p2_y = p2.copy() *)
      let p2_y := get2 p2 in
      (* p2_y[1:, :] -= p2[:-1, :] *)
      let p2_y := fun i j => if 1 <=? i then (p2_y i j - get2 p2 (i - 1) j)%Q else p2_y i j in
      (* p2_y[0, :] = p2_y[1, :] *)
      src <- index nl2 1 ;;
      dst <- index nl2 0 ;;
      let p2_y := fun i j => if i =? dst then p2_y src j else p2_y i j in
      (* return p1_x + p2_y *)
      add (array2 nl1 nc1 p1_x) (array2 nl2 nc2 p2_y)
  | _, _ => raise IndexError
  end.

(** ** upscale_flow *)

(** [shape[k]] on a tuple. *)
Definition getitem (l : list nat) (k : nat) : result nat :=
  match nth_error l k with
  | Some d => ret d
  | None => raise IndexError
  end.

(** Python's true division of two ints. *)
Definition true_div (a b : nat) : result Q :=
  if b =? 0 then raise ZeroDivisionError
  else ret (inject_Z (Z.of_nat a) / inject_Z (Z.of_nat b))%Q.

(** [s * a] for a scalar [s]. *)
Definition scale (s : Q) (a : ndarray) : ndarray :=
  {| shape := shape a; item := fun ix => (s * item a ix)%Q |}.

(** Modelled from the spec: [skimage.transform.resize(a, shape, order=0,
    preserve_range=True, anti_aliasing=False)] is library code outside the
    repository.  Nearest-neighbour resampling "with values preserved exactly
    at sampled points": output sample [k] of an axis resized from [n] to [n']
    reads the input sample under the centre of output pixel [k], that is
    index [floor((k + 1/2) * n / n')]. *)
Definition nearest_source (n n' k : nat) : nat := ((2 * k + 1) * n) / (2 * n').

Definition resize (a : ndarray) (out_shape : list nat) : result ndarray :=
  match shape a, out_shape with
  | [nl; nc], [nl'; nc'] =>
      ret (array2 nl' nc' (fun i j =>
             get2 a (nearest_source nl nl' i) (nearest_source nc nc' j)))
  | _, _ => raise (ValueError "resize: only 2D to 2D is modelled")
  end.

Definition upscale_flow (u v : ndarray) (shape_ : list nat) : result (ndarray * ndarray) :=
  match shape u with
  | [nl; nc] =>
      h <- getitem shape_ 0 ;;
      sy <- true_div h nl ;;
      w <- getitem shape_ 1 ;;
      sx <- true_div w nc ;;
      u <- resize u shape_ ;;
      v <- resize v shape_ ;;
      ret (scale sx u, scale sy v)
  | _ => raise (ValueError "not enough values to unpack")
  end.

(** ** flow_to_mdlburry_color: the colour wheel and one pixel's colour *)

Definition col_range : list nat := [0; 15; 6; 4; 11; 13; 6].

(** [ncol = np.sum(col_range)]. *)
Definition ncol : nat := list_sum col_range.

(** The slice assignment [w[start:start+n, ch] = f(np.arange(n))]. *)
Definition assign (w : nat -> nat -> Z) (start n ch : nat) (f : nat -> Z)
  : nat -> nat -> Z :=
  fun k c =>
    if (start <=? k) && (k <? start + n) && (c =? ch) then f (k - start) else w k c.

(** [np.floor(255*np.arange(n)/n)] at position [k]. *)
Definition ramp (n k : nat) : Z := (255 * Z.of_nat k / Z.of_nat n)%Z.

(** [colorWheel[k, c]], built by the twelve slice assignments of the source. *)
Definition colorWheel : nat -> nat -> Z :=
  match col_range with
  | [_; RY; YG; GC; CB; BM; MR] =>
      let w := fun _ _ => 0%Z in
      let col := 0 in
      let w := assign w 0 RY 0 (fun _ => 255%Z) in
      let w := assign w 0 RY 1 (ramp RY) in
      let col := col + RY in
      let w := assign w col YG 0 (fun k => 255 - ramp YG k)%Z in
      let w := assign w col YG 1 (fun _ => 255%Z) in
      let col := col + YG in
      let w := assign w col GC 1 (fun _ => 255%Z) in
      let w := assign w col GC 2 (ramp GC) in
      let col := col + GC in
      let w := assign w col CB 1 (fun k => 255 - ramp CB k)%Z in
      let w := assign w col CB 2 (fun _ => 255%Z) in
      let col := col + CB in
      let w := assign w col BM 2 (fun _ => 255%Z) in
      let w := assign w col BM 0 (ramp BM) in
      let col := col + BM in
      let w := assign w col MR 2 (fun k => 255 - ramp MR k)%Z in
      let w := assign w col MR 0 (fun _ => 255%Z) in
      w
  | _ => fun _ _ => 0%Z
  end.

(** The check run on every wheel entry: its three channels lie in 0..255
    and one of them is 255. *)
Definition wheel_entry_ok (k : nat) : bool :=
  forallb (fun c => (0 <=? colorWheel k c)%Z && (colorWheel k c <=? 255)%Z) (seq 0 3)
  && existsb (fun c => (colorWheel k c =? 255)%Z) (seq 0 3).




(** ** get_pyramid *)

Definition level : Type := (ndarray * ndarray)%type.

Definition ShapeMismatch : exn := ValueError "Images should have the same size".

Definition DimensionalityError : exn := ValueError "Images should be grayscale.".

Definition default_downscale : Q := 2%Q.

Definition default_min_size : Z := 16%Z.

(** [min(a.shape[:2])]. *)
Definition min_shape2 (a : ndarray) : result nat :=
  match firstn 2 (shape a) with
  | [] => raise (ValueError "min() arg is an empty sequence")
  | d :: ds => ret (fold_left Nat.min ds d)
  end.

(** [math.ceil(d / float(downscale))]. *)
Definition reduced_dim (downscale : Q) (d : nat) : nat :=
  Z.to_nat (Qceiling (inject_Z (Z.of_nat d) / downscale)).

(** [pyramid[-1]]. *)
Definition getlast {A : Type} (l : list A) : result A :=
  match rev l with
  | x :: _ => ret x
  | [] => raise IndexError
  end.

(** One invocation of the injected solver, as the driver sees it. *)
Record call : Type := mkcall {
  call_I0 : ndarray; call_I1 : ndarray; call_u : ndarray; call_v : ndarray }.

Definition call_images (c : call) : level := (call_I0 c, call_I1 c).

(** The injected solver: it returns the refined flow, or fails with a
    message of its own that the driver passes on as [SolverFailure]. *)
Definition Solver : Type :=
  ndarray -> ndarray -> ndarray -> ndarray -> string + (ndarray * ndarray).

(** The solver of the end-to-end scenario: it returns its input flow. *)
Definition identity_solver : Solver := fun _ _ u v => inr (u, v).

(** ** Inputs used in the examples *)

(** A constant [h] x [w] image. *)
Definition flat (h w : nat) (c : Q) : ndarray := array2 h w (fun _ _ => c).

(** A 3 x 3 image, zero but for its centre. *)
Definition bump : ndarray := of_rows [[0; 0; 0]; [0; 4; 0]; [0; 0; 0]]%Q.

(** A 2D array with no rows. *)
Definition empty_grid : ndarray := flat 0 3 0.

(** A one-dimensional array. *)
Definition line : ndarray := {| shape := [64]; item := fun _ => 1%Q |}.

(** A 2 x 3 image with distinct samples. *)
Definition steps : ndarray := of_rows [[1; 2; 4]; [7; 11; 16]]%Q.

(** A solver that always fails. *)
Definition failing_solver : Solver := fun _ _ _ _ => inl "no convergence"%string.

(** Stand-ins for the two floating-point computations kept abstract below. *)
Definition keep_sample : Q -> Q := fun q => q.

Definition grey_sample : ndarray -> Q -> list nat -> Q := fun _ _ _ => (1 # 2)%Q.

Section Library.

(** What skimage computes in floating point is kept abstract: the value
    [skimage.img_as_float32] gives a sample, and the sample at a given index
    of the Gaussian-smoothed, order-1 resized image that
    [skimage.transform.pyramid_reduce] returns. *)
Variable float32_sample : Q -> Q.
Variable reduced_sample : ndarray -> Q -> list nat -> Q.

Definition img_as_float32 (a : ndarray) : ndarray :=
  {| shape := shape a; item := fun ix => float32_sample (item a ix) |}.

(** [pyramid_reduce(image, downscale, multichannel=False)]: the factor is
    checked, then every axis is reduced to [ceil(d / downscale)]. *)
Definition pyramid_reduce (image : ndarray) (downscale : Q) : result ndarray :=
  if Qle_bool downscale 1
  then raise (ValueError "scale factor must be greater than 1")
  else ret {| shape := map (reduced_dim downscale) (shape image);
              item := reduced_sample image downscale |}.

(** One pass of the body of the [while] loop. *)
Definition reduce_once (downscale : Q) (pyramid : list level)
  : result (list level * nat) :=
  top <- getlast pyramid ;;
  J0 <- pyramid_reduce (fst top) downscale ;;
  J1 <- pyramid_reduce (snd top) downscale ;;
  size <- min_shape2 J0 ;;
  ret (pyramid ++ [(J0, J1)], size).

(** The [while size > min_size] loop; [None] when [fuel] passes of the body
    were not enough to leave it. *)
Fixpoint pyramid_loop (fuel : nat) (downscale : Q) (min_size : Z)
  (pyramid : list level) (size : nat) : option (result (list level)) :=
  if (min_size <? Z.of_nat size)%Z then
    match fuel with
    | O => None
    | S fuel =>
        match reduce_once downscale pyramid with
        | inl e => Some (inl e)
        | inr (pyramid, size) => pyramid_loop fuel downscale min_size pyramid size
        end
    end
  else Some (ret (rev pyramid)).

Definition get_pyramid (fuel : nat) (I0 I1 : ndarray) (downscale : Q) (min_size : Z)
  : option (result (list level)) :=
  if list_eq_dec Nat.eq_dec (shape I0) (shape I1) then
    match min_shape2 I0 with
    | inl e => Some (inl e)
    | inr size => pyramid_loop fuel downscale min_size [(I0, I1)] size
    end
  else Some (raise ShapeMismatch).

(** ** coarse_to_fine *)

(** The driver is instrumented with the list of solver invocations made so
    far, oldest first. *)
Definition invoke (solver : Solver) (J0 J1 u v : ndarray) (log : list call)
  : list call * result (ndarray * ndarray) :=
  (log ++ [mkcall J0 J1 u v],
   match solver J0 J1 u v with
   | inl msg => raise (SolverFailure msg)
   | inr uv => ret uv
   end).

(** [for J0, J1 in pyramid[1:]: ...]. *)
Fixpoint refine_levels (solver : Solver) (levels : list level) (u v : ndarray)
  (log : list call) : list call * result (ndarray * ndarray) :=
  match levels with
  | [] => (log, ret (u, v))
  | (J0, J1) :: levels =>
      match upscale_flow u v (shape J0) with
      | inl e => (log, inl e)
      | inr (u, v) =>
          match invoke solver J0 J1 u v log with
          | (log, inl e) => (log, inl e)
          | (log, inr (u, v)) => refine_levels solver levels u v log
          end
      end
  end.

Definition coarse_to_fine (fuel : nat) (I0 I1 : ndarray) (solver : Solver)
  (downscale : Q) : list call * option (result (ndarray * ndarray)) :=
  if negb (ndim I0 =? 2) || negb (ndim I1 =? 2)
  then ([], Some (raise DimensionalityError))
  else
    match get_pyramid fuel (img_as_float32 I0) (img_as_float32 I1)
                      downscale default_min_size with
    | None => ([], None)
    | Some (inl e) => ([], Some (inl e))
    | Some (inr pyramid) =>
        match pyramid with
        | [] => ([], Some (raise IndexError))
        | (P0, P1) :: rest =>
            let u := zeros_like P0 in
            let v := zeros_like u in
            match invoke solver P0 P1 u v [] with
            | (log, inl e) => (log, Some (inl e))
            | (log, inr (u, v)) =>
                let (log, r) := refine_levels solver rest u v log in (log, Some r)
            end
        end
    end.

(** ** Vocabulary of the statements *)

(** Both images of a level are 2D of shape (h, w). *)
Definition same2d (l : level) (h w : nat) : Prop :=
  shape (fst l) = [h; w] /\ shape (snd l) = [h; w].

(** A pyramid in the order [get_pyramid] returns it, coarsest level first:
    every level but the last is the reduction of the level after it, and that
    finer level's smaller dimension exceeds [min_size] (which is why it was
    reduced). *)
Inductive pyramid_chain (downscale : Q) (min_size : Z) : list level -> Prop :=
| chain_finest (l : level) (h w : nat) :
    same2d l h w -> pyramid_chain downscale min_size [l]
| chain_coarser (c f : level) (rest : list level) (h w : nat) :
    same2d f h w ->
    (min_size < Z.of_nat (Nat.min h w))%Z ->
    same2d c (reduced_dim downscale h) (reduced_dim downscale w) ->
    pyramid_chain downscale min_size (f :: rest) ->
    pyramid_chain downscale min_size (c :: f :: rest).

(** The solver on the arguments recorded in a call. *)
Definition solve_call (solver : Solver) (c : call) : string + (ndarray * ndarray) :=
  solver (call_I0 c) (call_I1 c) (call_u c) (call_v c).

(** The solver's contract: given a pair of images of one shape and an
    initial flow of that shape, it returns a flow of that shape. *)
Definition solver_contract (solver : Solver) : Prop :=
  forall J0 J1 u v,
    shape J1 = shape J0 -> shape u = shape J0 -> shape v = shape J0 ->
    exists u' v', solver J0 J1 u v = inr (u', v') /\
                  shape u' = shape J0 /\ shape v' = shape J0.

(** Each invocation after the first receives the flow the invocation before
    it returned, rescaled by [upscale_flow] to the shape of its own images. *)
Inductive linked (solver : Solver) : list call -> Prop :=
| linked_last (c : call) : linked solver [c]
| linked_next (c c' : call) (rest : list call) (u v : ndarray) :
    solve_call solver c = inr (u, v) ->
    upscale_flow u v (shape (call_I0 c')) = inr (call_u c', call_v c') ->
    linked solver (c' :: rest) ->
    linked solver (c :: c' :: rest).

(** [follows solver u v log u' v']: starting from the flow (u, v), the
    invocations [log] are linked as above and the last one returns (u', v'). *)
Inductive follows (solver : Solver)
  : ndarray -> ndarray -> list call -> ndarray -> ndarray -> Prop :=
| follows_done (u v : ndarray) : follows solver u v [] u v
| follows_step (u v : ndarray) (c : call) (rest : list call) (u1 v1 u' v' : ndarray) :
    upscale_flow u v (shape (call_I0 c)) = inr (call_u c, call_v c) ->
    solve_call solver c = inr (u1, v1) ->
    follows solver u1 v1 rest u' v' ->
    follows solver u v (c :: rest) u' v'.

(** The invocation recorded in [c] returned a flow. *)
Definition succeeded (solver : Solver) (c : call) : Prop :=
  exists uv, solve_call solver c = inr uv.

(** Every sample of both components of a flow is zero. *)
Definition zero_flow (u v : ndarray) : Prop :=
  (forall ix, (item u ix == 0)%Q) /\ (forall ix, (item v ix == 0)%Q).

(** ** Theorems *)

Lemma index_last (len : nat) : 1 <= len -> index len (-1) = inr (len - 1).
Proof.
  intros H. unfold index.
  replace ((0 <=? -1)%Z) with false by reflexivity. cbn [andb].
  destruct (Z.leb_spec (- Z.of_nat len) (-1)); [|lia].
  cbn. unfold ret. f_equal. lia.
Qed.

Lemma index_before_last (len : nat) : 2 <= len -> index len (-2) = inr (len - 2).
Proof.
  intros H. unfold index.
  replace ((0 <=? -2)%Z) with false by reflexivity. cbn [andb].
  destruct (Z.leb_spec (- Z.of_nat len) (-2)); [|lia].
  cbn. unfold ret. f_equal. lia.
Qed.

(** C8 (as amended): on a constant grid with at least two rows and two
    columns, [forward_diff] returns two grids of the input's shape whose
    samples are all zero, the last row and column included. *)
Theorem forward_diff_constant (p : ndarray) (nl nc : nat) (c : Q) :
  shape p = [nl; nc] -> 2 <= nl -> 2 <= nc -> constant_on nl nc p c ->
  exists p_x p_y,
    forward_diff p = inr (p_x, p_y) /\
    shape p_x = shape p /\ shape p_y = shape p /\
    constant_on nl nc p_x 0 /\ constant_on nl nc p_y 0.
Proof.
  intros Hs Hl Hc Hp. unfold forward_diff. rewrite Hs.
  rewrite (index_before_last nc Hc), (index_last nc) by lia.
  rewrite (index_before_last nl Hl), (index_last nl) by lia.
  cbn [bind ret]. eexists _, _. split; [reflexivity|].
  split; [reflexivity|]. split; [reflexivity|].
  split; intros i j Hi Hj; unfold get2; cbn [item array2].
  - destruct (Nat.eqb_spec j (nc - 1)) as [->|Hne].
    + replace (S (nc - 2) <? nc) with true by (symmetry; apply Nat.ltb_lt; lia).
      pose proof (Hp i (nc - 2) Hi ltac:(lia)) as H1.
      pose proof (Hp i (S (nc - 2)) Hi ltac:(lia)) as H2.
      unfold get2 in H1, H2. lra.
    + replace (S j <? nc) with true by (symmetry; apply Nat.ltb_lt; lia).
      pose proof (Hp i j Hi Hj) as H1.
      pose proof (Hp i (S j) Hi ltac:(lia)) as H2.
      unfold get2 in H1, H2. lra.
  - destruct (Nat.eqb_spec i (nl - 1)) as [->|Hne].
    + replace (S (nl - 2) <? nl) with true by (symmetry; apply Nat.ltb_lt; lia).
      pose proof (Hp (nl - 2) j ltac:(lia) Hj) as H1.
      pose proof (Hp (S (nl - 2)) j ltac:(lia) Hj) as H2.
      unfold get2 in H1, H2. lra.
    + replace (S i <? nl) with true by (symmetry; apply Nat.ltb_lt; lia).
      pose proof (Hp i j Hi Hj) as H1.
      pose proof (Hp (S i) j ltac:(lia) Hj) as H2.
      unfold get2 in H1, H2. lra.
Qed.

(** *** upscale_flow *)

Lemma nearest_source_lt (n n' k : nat) :
  0 < n -> k < n' -> nearest_source n n' k < n.
Proof.
  intros Hn Hk. unfold nearest_source.
  apply Nat.Div0.div_lt_upper_bound. nia.
Qed.

Lemma nearest_source_same (n k : nat) : 0 < n -> nearest_source n n k = k.
Proof.
  intros Hn. unfold nearest_source. symmetry.
  apply (Nat.div_unique _ _ _ n); nia.
Qed.

Lemma true_div_pos (a b : nat) :
  0 < b -> true_div a b = inr (inject_Z (Z.of_nat a) / inject_Z (Z.of_nat b))%Q.
Proof.
  intros Hb. unfold true_div.
  destruct (Nat.eqb_spec b 0); [lia|reflexivity].
Qed.

Lemma inject_nat_nonzero (n : nat) : 0 < n -> ~ (inject_Z (Z.of_nat n) == 0)%Q.
Proof.
  intros Hn H. unfold Qeq in H. cbn in H. lia.
Qed.

(** What [upscale_flow] returns on a flow whose first component is 2D and
    not empty. *)
Lemma upscale_flow_run (u v : ndarray) (nl nc ml mc h w : nat) :
  shape u = [nl; nc] -> shape v = [ml; mc] -> 0 < nl -> 0 < nc ->
  upscale_flow u v [h; w] =
    inr (scale (inject_Z (Z.of_nat w) / inject_Z (Z.of_nat nc))
           (array2 h w (fun i j =>
              get2 u (nearest_source nl h i) (nearest_source nc w j))),
         scale (inject_Z (Z.of_nat h) / inject_Z (Z.of_nat nl))
           (array2 h w (fun i j =>
              get2 v (nearest_source ml h i) (nearest_source mc w j)))).
Proof.
  intros Hu Hv Hl Hc. unfold upscale_flow, resize. rewrite Hu, Hv.
  cbn [getitem nth_error bind ret].
  rewrite (true_div_pos h nl Hl), (true_div_pos w nc Hc).
  reflexivity.
Qed.

(** C2 (as amended): on a flow field of shape (h, w) with at least one row
    and one column, [upscale_flow] returns two grids of exactly the target
    shape (h', w'); a uniform [u = c1] comes out uniform at [c1 * w'/w] and a
    uniform [v = c2] at [c2 * h'/h]. *)
Theorem upscale_flow_uniform (u v : ndarray) (h w h' w' : nat) (c1 c2 : Q) :
  shape u = [h; w] -> shape v = [h; w] -> 0 < h -> 0 < w ->
  exists u' v',
    upscale_flow u v [h'; w'] = inr (u', v') /\
    shape u' = [h'; w'] /\ shape v' = [h'; w'] /\
    (constant_on h w u c1 ->
     constant_on h' w' u' (c1 * (inject_Z (Z.of_nat w') / inject_Z (Z.of_nat w)))) /\
    (constant_on h w v c2 ->
     constant_on h' w' v' (c2 * (inject_Z (Z.of_nat h') / inject_Z (Z.of_nat h)))).
Proof.
  intros Hu Hv Hh Hw.
  rewrite (upscale_flow_run u v h w h w h' w' Hu Hv Hh Hw).
  eexists _, _. split; [reflexivity|].
  split; [reflexivity|]. split; [reflexivity|].
  split; intros Hc i j Hi Hj; unfold get2; cbn [item scale array2].
  - pose proof (Hc _ _ (nearest_source_lt h h' i Hh Hi)
                       (nearest_source_lt w w' j Hw Hj)) as E.
    rewrite E. apply Qmult_comm.
  - pose proof (Hc _ _ (nearest_source_lt h h' i Hh Hi)
                       (nearest_source_lt w w' j Hw Hj)) as E.
    rewrite E. apply Qmult_comm.
Qed.

(** C10 (as amended): on a flow field with at least one row and one column,
    [upscale_flow] to the field's own shape returns grids of that shape whose
    samples equal the inputs' samples. *)
Theorem upscale_flow_same_shape (u v : ndarray) (h w : nat) :
  shape u = [h; w] -> shape v = [h; w] -> 0 < h -> 0 < w ->
  exists u' v',
    upscale_flow u v (shape u) = inr (u', v') /\
    shape u' = shape u /\ shape v' = shape v /\
    (forall i j, i < h -> j < w ->
       (get2 u' i j == get2 u i j)%Q /\ (get2 v' i j == get2 v i j)%Q).
Proof.
  intros Hu Hv Hh Hw.
  replace (upscale_flow u v (shape u)) with (upscale_flow u v [h; w])
    by (rewrite Hu; reflexivity).
  rewrite (upscale_flow_run u v h w h w h w Hu Hv Hh Hw).
  eexists _, _. split; [reflexivity|].
  split; [symmetry; exact Hu|]. split; [symmetry; exact Hv|].
  intros i j Hi Hj. unfold get2; cbn [item scale array2].
  rewrite !nearest_source_same by assumption.
  pose proof (inject_nat_nonzero h Hh). pose proof (inject_nat_nonzero w Hw).
  split; unfold get2; field; assumption.
Qed.

(** *** warp *)

Lemma Qfloor_unique (x : Q) (z : Z) :
  (inject_Z z <= x)%Q -> (x < inject_Z (z + 1))%Q -> Qfloor x = z.
Proof.
  intros H1 H2.
  pose proof (Qfloor_le x) as F1. pose proof (Qlt_floor x) as F2.
  assert (z < Qfloor x + 1)%Z by (rewrite Zlt_Qlt; lra).
  assert (Qfloor x < z + 1)%Z by (rewrite Zlt_Qlt; lra).
  lia.
Qed.

Lemma edge_index_inside (len k : nat) : k < len -> edge_index len (Z.of_nat k) = k.
Proof.
  intros Hk. unfold edge_index.
  destruct (Nat.leb_spec len 1); [lia|].
  destruct (Z.ltb_spec (Z.of_nat k) 0); [lia|].
  destruct (Z.leb_spec (Z.of_nat len) (Z.of_nat k)); lia.
Qed.

Lemma add_same_shape (a b : ndarray) :
  shape a = shape b ->
  add a b = inr {| shape := shape a; item := fun ix => (item a ix + item b ix)%Q |}.
Proof.
  intros H. unfold add. destruct (list_eq_dec Nat.eq_dec (shape a) (shape b));
    [reflexivity|contradiction].
Qed.

(** Along one axis of length [len], the coordinate [i - 1/2]: either it is
    clamped to 0 (weight 0 on the second tap, [i = 0]), or the two taps are
    [i - 1] and [i] with weight 1/2 each. *)
Lemma axis_taps (len i : nat) (c : Q) :
  i < len -> (c == arange_minus_half i)%Q ->
  ((map_coordinate len c - inject_Z (Qfloor (map_coordinate len c)) == 0)%Q /\
   edge_index len (Qfloor (map_coordinate len c) + 0) = pred i /\ pred i = i)
  \/
  ((map_coordinate len c - inject_Z (Qfloor (map_coordinate len c)) == 1 # 2)%Q /\
   edge_index len (Qfloor (map_coordinate len c) + 0) = pred i /\
   edge_index len (Qfloor (map_coordinate len c) + 1) = i).
Proof.
  intros Hi Hc. unfold arange_minus_half in Hc.
  destruct i as [|k].
  - left. change (inject_Z (Z.of_nat 0)) with 0%Q in Hc.
    assert (E : map_coordinate len c = 0%Q).
    { unfold map_coordinate. destruct (Qle_bool 0 c) eqn:B; [|reflexivity].
      apply Qle_bool_iff in B. lra. }
    rewrite E. change (Qfloor 0) with 0%Z. cbn [Z.add pred].
    split; [reflexivity|]. split; [|reflexivity].
    apply (edge_index_inside len 0 Hi).
  - right.
    assert (B1 : (1 <= inject_Z (Z.of_nat (S k)))%Q).
    { change 1%Q with (inject_Z 1). rewrite <- Zle_Qle. lia. }
    assert (B2 : (inject_Z (Z.of_nat (S k)) <= inject_Z (Z.of_nat len - 1))%Q).
    { rewrite <- Zle_Qle. lia. }
    assert (E : map_coordinate len c = c).
    { unfold map_coordinate.
      destruct (Qle_bool 0 c) eqn:B.
      - destruct (Qle_bool c (inject_Z (Z.of_nat len - 1))) eqn:B'; [reflexivity|].
        assert (c <= inject_Z (Z.of_nat len - 1))%Q by lra.
        apply Qle_bool_iff in H. congruence.
      - assert (0 <= c)%Q by lra. apply Qle_bool_iff in H. congruence. }
    rewrite E.
    assert (P : (inject_Z (Z.of_nat (S k)) == inject_Z (Z.of_nat k) + 1)%Q).
    { rewrite Nat2Z.inj_succ. unfold Z.succ. rewrite inject_Z_plus. reflexivity. }
    assert (F : Qfloor c = Z.of_nat k).
    { apply Qfloor_unique; [lra|]. rewrite inject_Z_plus.
      change (inject_Z 1) with 1%Q. lra. }
    rewrite F. split; [lra|]. cbn [pred]. split.
    + rewrite Z.add_0_r. apply edge_index_inside. lia.
    + replace (Z.of_nat k + 1)%Z with (Z.of_nat (S k)) by lia.
      apply edge_index_inside. exact Hi.
Qed.

(** Bilinear sampling at [(i - 1/2, j - 1/2)] is the mean of the four
    samples around that point (an index below 0 is taken as 0). *)
Lemma interp_linear_half (I : ndarray) (nl nc i j : nat) (y x : Q) :
  i < nl -> j < nc ->
  (y == arange_minus_half i)%Q -> (x == arange_minus_half j)%Q ->
  (interp_linear I nl nc y x ==
   (get2 I (pred i) (pred j) + get2 I (pred i) j
    + get2 I i (pred j) + get2 I i j) / 4)%Q.
Proof.
  intros Hi Hj Hy Hx. unfold interp_linear. cbv zeta.
  destruct (axis_taps nl i y Hi Hy) as [(Ty & Y0 & Yp) | (Ty & Y0 & Y1)];
    destruct (axis_taps nc j x Hj Hx) as [(Tx & X0 & Xp) | (Tx & X0 & X1)];
    rewrite Ty, Tx, Y0, X0.
  - rewrite Yp, Xp. field.
  - rewrite X1, Yp. field.
  - rewrite Y1, Xp. field.
  - rewrite Y1, X1. field.
Qed.

(** C1 (as amended): with an all-zero flow and no coordinate grids, [warp]
    returns a grid of the image's shape whose sample at (i, j) is the
    bilinear sample of the image at (i - 1/2, j - 1/2): the mean of the four
    samples I[i-1][j-1], I[i-1][j], I[i][j-1], I[i][j] (an index below 0
    taken as 0).  It returns the image itself when the image is constant. *)
Theorem warp_zero_flow (I u v : ndarray) (nl nc : nat) :
  shape I = [nl; nc] -> shape u = [nl; nc] -> shape v = [nl; nc] ->
  constant_on nl nc u 0 -> constant_on nl nc v 0 ->
  exists out,
    warp I u v None None = inr out /\
    shape out = shape I /\
    (forall i j, i < nl -> j < nc ->
       (get2 out i j ==
        (get2 I (pred i) (pred j) + get2 I (pred i) j
         + get2 I i (pred j) + get2 I i j) / 4)%Q) /\
    (forall c, constant_on nl nc I c -> constant_on nl nc out c).
Proof.
  intros HI Hu Hv Zu Zv.
  assert (R : exists out, warp I u v None None = inr out /\ shape out = shape I /\
    forall i j, i < nl -> j < nc ->
      (get2 out i j ==
       (get2 I (pred i) (pred j) + get2 I (pred i) j
        + get2 I i (pred j) + get2 I i j) / 4)%Q).
  { unfold warp. rewrite HI. unfold meshgrid_ij. cbn [bind ret].
    rewrite add_same_shape by (rewrite Hv; reflexivity). cbn [bind].
    rewrite add_same_shape by (rewrite Hu; reflexivity). cbn [bind].
    unfold map_coordinates. rewrite HI. cbn [shape array2].
    destruct (list_eq_dec Nat.eq_dec [nl; nc] [nl; nc]) as [_|N]; [|contradiction].
    eexists. split; [reflexivity|]. split; [reflexivity|].
    intros i j Hi Hj. unfold get2 at 1. cbn [item array2].
    apply interp_linear_half; try assumption.
    - pose proof (Zv i j Hi Hj) as E. unfold get2 in E. rewrite E. ring.
    - pose proof (Zu i j Hi Hj) as E. unfold get2 in E. rewrite E. ring. }
  destruct R as (out & Hrun & Hshape & Hmean).
  exists out. repeat split; try assumption.
  intros c Hc i j Hi Hj. rewrite (Hmean i j Hi Hj).
  rewrite (Hc (pred i) (pred j)), (Hc (pred i) j), (Hc i (pred j)), (Hc i j) by lia.
  field.
Qed.

(** *** get_pyramid *)

Lemma reduced_dim_half (d : nat) :
  d <= 2 * reduced_dim 2 d /\ 2 * reduced_dim 2 d <= d + 1.
Proof.
  unfold reduced_dim, Qceiling, Qfloor. cbn.
  rewrite Z.mul_1_r.
  pose proof (Z.div_mod (- Z.of_nat d) 2 ltac:(lia)) as E.
  pose proof (Z.mod_pos_bound (- Z.of_nat d) 2 ltac:(lia)) as B.
  lia.
Qed.

Lemma reduced_min (h w : nat) :
  Nat.min (reduced_dim 2 h) (reduced_dim 2 w) = reduced_dim 2 (Nat.min h w).
Proof.
  pose proof (reduced_dim_half h). pose proof (reduced_dim_half w).
  pose proof (reduced_dim_half (Nat.min h w)).
  destruct (Nat.min_spec h w) as [[L E]|[L E]]; rewrite E in *; lia.
Qed.

Lemma min_shape2_2d (a : ndarray) (h w : nat) :
  shape a = [h; w] -> min_shape2 a = inr (Nat.min h w).
Proof.
  intros H. unfold min_shape2. rewrite H. reflexivity.
Qed.

Lemma getlast_rev {A : Type} (l : list A) (x : A) (xs : list A) :
  rev l = x :: xs -> getlast l = inr x.
Proof.
  intros H. unfold getlast. rewrite H. reflexivity.
Qed.

Lemma pyramid_reduce_default (image : ndarray) :
  pyramid_reduce image 2 =
  inr {| shape := map (reduced_dim 2) (shape image);
         item := reduced_sample image 2 |}.
Proof. reflexivity. Qed.

(** One pass of the loop body at the default factor, on a pyramid whose
    newest level is 2D. *)
Lemma reduce_once_default (pyramid : list level) (top : level)
  (rest : list level) (h w : nat) :
  rev pyramid = top :: rest -> same2d top h w ->
  exists J, reduce_once 2 pyramid
            = inr (pyramid ++ [J], Nat.min (reduced_dim 2 h) (reduced_dim 2 w)) /\
            same2d J (reduced_dim 2 h) (reduced_dim 2 w).
Proof.
  intros Hr [H0 H1]. unfold reduce_once.
  rewrite (getlast_rev _ _ _ Hr). cbn [bind].
  rewrite !pyramid_reduce_default. cbn [bind].
  erewrite min_shape2_2d by (cbn [shape]; rewrite H0; reflexivity).
  cbn [bind ret]. eexists. split; [reflexivity|].
  split; cbn [fst snd shape]; [rewrite H0|rewrite H1]; reflexivity.
Qed.

(** The loop at the default factor with [min_size >= 1]: started with fuel
    for the current size, it returns; what it returns continues the chain
    built so far, begins with a level no larger than [min_size] and ends
    with the level the build began with. *)
Lemma pyramid_loop_default (min_size : Z) (fuel : nat) :
  (1 <= min_size)%Z ->
  forall (pyramid : list level) (top : level) (rest : list level) (h w : nat),
    rev pyramid = top :: rest ->
    pyramid_chain 2 min_size (top :: rest) ->
    same2d top h w ->
    Nat.min h w <= fuel ->
    exists c pyr,
      pyramid_loop fuel 2 min_size pyramid (Nat.min h w) = Some (inr (c :: pyr)) /\
      pyramid_chain 2 min_size (c :: pyr) /\
      (exists hc wc, same2d c hc wc /\ (Z.of_nat (Nat.min hc wc) <= min_size)%Z) /\
      (forall d, last (c :: pyr) d = last (top :: rest) d).
Proof.
  intros Hm. induction fuel as [|fuel IH]; intros pyramid top rest h w Hr Hc Ht Hf.
  - cbn [pyramid_loop].
    destruct (Z.ltb_spec min_size (Z.of_nat (Nat.min h w))) as [L|L]; [lia|].
    exists top, rest. rewrite Hr. repeat split; try assumption.
    exists h, w. split; assumption.
  - cbn [pyramid_loop].
    destruct (Z.ltb_spec min_size (Z.of_nat (Nat.min h w))) as [L|L].
    + destruct (reduce_once_default pyramid top rest h w Hr Ht) as (J & -> & HJ).
      pose proof (reduced_dim_half (Nat.min h w)) as Hh.
      cbv beta iota.
      assert (Hr' : rev (pyramid ++ [J]) = J :: top :: rest)
        by (rewrite rev_unit, Hr; reflexivity).
      assert (Hc' : pyramid_chain 2 min_size (J :: top :: rest))
        by (apply (chain_coarser 2 min_size J top rest h w); assumption).
      assert (Hf' : Nat.min (reduced_dim 2 h) (reduced_dim 2 w) <= fuel)
        by (rewrite reduced_min; lia).
      destruct (IH (pyramid ++ [J]) J (top :: rest)
                   (reduced_dim 2 h) (reduced_dim 2 w) Hr' Hc' HJ Hf')
        as (c & pyr & E & C & S & La).
      exists c, pyr. repeat split; assumption.
    + exists top, rest. rewrite Hr. repeat split; try assumption.
      exists h, w. split; assumption.
Qed.

(** [get_pyramid] at the default factor on two 2D images of one shape. *)
Lemma get_pyramid_default (I0 I1 : ndarray) (h w fuel : nat) (min_size : Z) :
  shape I0 = [h; w] -> shape I1 = [h; w] ->
  (1 <= min_size)%Z -> Nat.min h w <= fuel ->
  exists c pyr,
    get_pyramid fuel I0 I1 2 min_size = Some (inr (c :: pyr)) /\
    pyramid_chain 2 min_size (c :: pyr) /\
    (exists hc wc, same2d c hc wc /\ (Z.of_nat (Nat.min hc wc) <= min_size)%Z) /\
    (forall d, last (c :: pyr) d = (I0, I1)).
Proof.
  intros H0 H1 Hm Hf. unfold get_pyramid.
  destruct (list_eq_dec Nat.eq_dec (shape I0) (shape I1)) as [_|N];
    [|congruence].
  rewrite (min_shape2_2d I0 h w H0).
  assert (S2 : same2d (I0, I1) h w) by (split; assumption).
  destruct (pyramid_loop_default min_size fuel Hm [(I0, I1)] (I0, I1) [] h w
              eq_refl (chain_finest 2 min_size _ h w S2) S2 Hf)
    as (c & pyr & E & C & S & La).
  exists c, pyr. repeat split; assumption.
Qed.

(** In a chain, the level after the coarsest one is larger than [min_size]. *)
Lemma pyramid_chain_second (downscale : Q) (min_size : Z) (c f : level)
  (rest : list level) :
  pyramid_chain downscale min_size (c :: f :: rest) ->
  exists m, min_shape2 (fst f) = inr m /\ (min_size < Z.of_nat m)%Z.
Proof.
  intros H. inversion H as [|c' f' rest' h w [F0 F1] L _ _]; subst.
  exists (Nat.min h w). split; [apply min_shape2_2d; exact F0|exact L].
Qed.

(** C3 (as amended): for two 2D images of one shape and [min_size >= 1], at
    the default factor, [get_pyramid] returns (given fuel for the images'
    smaller dimension) a sequence whose last element is the input pair
    itself, whose first element has its smaller dimension at most
    [min_size], and whose second element, if any, has it above [min_size]. *)
Theorem get_pyramid_levels (I0 I1 : ndarray) (h w fuel : nat) (min_size : Z) :
  shape I0 = [h; w] -> shape I1 = [h; w] ->
  (1 <= min_size)%Z -> Nat.min h w <= fuel ->
  exists coarsest rest,
    get_pyramid fuel I0 I1 default_downscale min_size
      = Some (inr (coarsest :: rest)) /\
    (forall d, last (coarsest :: rest) d = (I0, I1)) /\
    (exists m, min_shape2 (fst coarsest) = inr m /\ (Z.of_nat m <= min_size)%Z) /\
    (forall second rest', rest = second :: rest' ->
       exists m, min_shape2 (fst second) = inr m /\ (min_size < Z.of_nat m)%Z).
Proof.
  intros H0 H1 Hm Hf.
  destruct (get_pyramid_default I0 I1 h w fuel min_size H0 H1 Hm Hf)
    as (c & pyr & E & C & (hc & wc & [S0 S1] & Le) & La).
  exists c, pyr. split; [exact E|]. split; [exact La|]. split.
  - exists (Nat.min hc wc). split; [apply min_shape2_2d; exact S0|exact Le].
  - intros second rest' ->. apply (pyramid_chain_second _ _ _ _ _ C).
Qed.

(** C9 (as amended): at the default factor and with [min_size >= 1], a
    reduction of a 2D image whose smaller dimension exceeds [min_size]
    strictly decreases that dimension, and [get_pyramid] on two 2D images of
    one shape returns once it has fuel for their smaller dimension.
    [get_pyramid] itself does not look at the factor: when no reduction is
    needed it returns the one-level pyramid whatever the factor is. *)
Theorem get_pyramid_terminates (I0 I1 : ndarray) (h w : nat) (min_size : Z) :
  shape I0 = [h; w] -> shape I1 = [h; w] -> (1 <= min_size)%Z ->
  (forall (J : ndarray) (hj wj : nat),
     shape J = [hj; wj] -> (min_size < Z.of_nat (Nat.min hj wj))%Z ->
     exists J' m, pyramid_reduce J default_downscale = inr J' /\
                  min_shape2 J' = inr m /\ m < Nat.min hj wj) /\
  (forall fuel, Nat.min h w <= fuel ->
     exists pyramid,
       get_pyramid fuel I0 I1 default_downscale min_size = Some (inr pyramid)) /\
  (forall (downscale : Q) (fuel : nat),
     (Z.of_nat (Nat.min h w) <= min_size)%Z ->
     get_pyramid fuel I0 I1 downscale min_size = Some (inr [(I0, I1)])).
Proof.
  intros H0 H1 Hm. split; [|split].
  - intros J hj wj HJ L. unfold default_downscale.
    rewrite pyramid_reduce_default. eexists _, _. split; [reflexivity|].
    split.
    + apply min_shape2_2d. cbn [shape]. rewrite HJ. reflexivity.
    + rewrite reduced_min. pose proof (reduced_dim_half (Nat.min hj wj)). lia.
  - intros fuel Hf.
    destruct (get_pyramid_default I0 I1 h w fuel min_size H0 H1 Hm Hf)
      as (c & pyr & E & _).
    exists (c :: pyr). exact E.
  - intros downscale fuel L. unfold get_pyramid.
    destruct (list_eq_dec Nat.eq_dec (shape I0) (shape I1)) as [_|N];
      [|congruence].
    rewrite (min_shape2_2d I0 h w H0).
    destruct fuel; cbn [pyramid_loop];
      destruct (Z.ltb_spec min_size (Z.of_nat (Nat.min h w))); try lia;
      reflexivity.
Qed.

(** *** coarse_to_fine *)

Lemma refine_levels_log (solver : Solver) (levels : list level) :
  forall (u v : ndarray) (log : list call),
    refine_levels solver levels u v log =
    (log ++ fst (refine_levels solver levels u v []),
     snd (refine_levels solver levels u v [])).
Proof.
  induction levels as [|[J0 J1] levels IH]; intros u v log; cbn [refine_levels].
  - cbn [fst snd]. rewrite app_nil_r. reflexivity.
  - destruct (upscale_flow u v (shape J0)) as [e|[u1 v1]].
    + cbn [fst snd]. rewrite app_nil_r. reflexivity.
    + unfold invoke. destruct (solver J0 J1 u1 v1) as [msg|[u2 v2]].
      * reflexivity.
      * cbn [ret]. rewrite (IH u2 v2 (log ++ _)), (IH u2 v2 ([] ++ _)).
        cbn [fst snd app]. rewrite <- app_assoc. reflexivity.
Qed.

Lemma follows_linked (solver : Solver) (log : list call) :
  forall (c : call) (u v u' v' : ndarray),
    solve_call solver c = inr (u, v) ->
    follows solver u v log u' v' ->
    linked solver (c :: log) /\
    (forall d, solve_call solver (last (c :: log) d) = inr (u', v')).
Proof.
  induction log as [|c' log IH]; intros c u v u' v' Hs Hf.
  - inversion Hf; subst. split; [constructor|]. intros d. exact Hs.
  - inversion Hf as [|? ? ? ? u1 v1 ? ? Hup Hs' Hf']; subst.
    destruct (IH c' u1 v1 u' v' Hs' Hf') as [L La].
    split.
    + apply (linked_next solver c c' log u v); assumption.
    + intros d. exact (La d).
Qed.

Section Refinement.

Variable solver : Solver.
Variable P : ndarray -> ndarray -> Prop.
Hypothesis contract : solver_contract solver.
Hypothesis P_zeros : forall a, P (zeros_like a) (zeros_like (zeros_like a)).
Hypothesis P_solver :
  forall J0 J1 u v u' v', P u v -> solver J0 J1 u v = inr (u', v') -> P u' v'.
Hypothesis P_upscale :
  forall u v s u' v', P u v -> upscale_flow u v s = inr (u', v') -> P u' v'.

(** The loop of the driver over the levels after [c], entered with a flow of
    [c]'s shape: it invokes the solver once on each level, in order, and
    returns what the last invocation returned. *)
Lemma refine_levels_run (min_size : Z) :
  (0 <= min_size)%Z ->
  forall (levels : list level) (c : level) (u v : ndarray),
    pyramid_chain 2 min_size (c :: levels) ->
    shape u = shape (fst c) -> shape v = shape (fst c) -> P u v ->
    exists log u' v',
      refine_levels solver levels u v [] = (log, inr (u', v')) /\
      map call_images log = levels /\
      follows solver u v log u' v' /\
      P u' v' /\
      (forall d, shape u' = shape (fst (last (c :: levels) d)) /\
                 shape v' = shape (fst (last (c :: levels) d))).
Proof.
  intros Hm. induction levels as [|[J0 J1] levels IH]; intros c u v Hc Hu Hv HP.
  - exists [], u, v. cbn [refine_levels map last]. repeat split; try assumption.
    constructor.
  - inversion Hc as [|c' f rest h w [F0 F1] L [C0 C1] Hc']; subst.
    cbn [fst snd] in F0, F1.
    pose proof (reduced_dim_half h). pose proof (reduced_dim_half w).
    rewrite C0 in Hu, Hv.
    assert (Hrun := upscale_flow_run u v _ _ _ _ h w Hu Hv ltac:(lia) ltac:(lia)).
    cbn [refine_levels]. rewrite F0, Hrun.
    match type of Hrun with _ = inr (?a, ?b) => set (u1 := a) in *; set (v1 := b) in * end.
    assert (HP1 : P u1 v1) by (apply (P_upscale u v [h; w]); assumption).
    destruct (contract J0 J1 u1 v1) as (u2 & v2 & Hs & Su & Sv);
      [congruence | rewrite F0; reflexivity | rewrite F0; reflexivity |].
    unfold invoke. rewrite Hs. cbn [ret app].
    rewrite refine_levels_log.
    destruct (IH (J0, J1) u2 v2 Hc' Su Sv (P_solver _ _ _ _ _ _ HP1 Hs))
      as (log & u' & v' & E & Hmap & Hf & HP' & Hsh).
    rewrite E. cbn [fst snd app].
    exists (mkcall J0 J1 u1 v1 :: log), u', v'.
    split; [reflexivity|]. split; [cbn [map call_images call_I0 call_I1]; rewrite Hmap; reflexivity|].
    split.
    + apply (follows_step solver u v _ log u2 v2 u' v'); cbn [call_I0 call_u call_v].
      * rewrite F0. exact Hrun.
      * exact Hs.
      * exact Hf.
    + split; [exact HP'|]. intros d. exact (Hsh d).
Qed.

(** The driver at the default factor on two 2D images of one shape, with a
    solver that meets its contract. *)
Lemma coarse_to_fine_run (I0 I1 : ndarray) (h w fuel : nat) :
  shape I0 = [h; w] -> shape I1 = [h; w] -> Nat.min h w <= fuel ->
  exists c pyr log u0 v0 u v,
    get_pyramid fuel (img_as_float32 I0) (img_as_float32 I1) 2 default_min_size
      = Some (inr (c :: pyr)) /\
    pyramid_chain 2 default_min_size (c :: pyr) /\
    coarse_to_fine fuel I0 I1 solver 2
      = (mkcall (fst c) (snd c) (zeros_like (fst c)) (zeros_like (zeros_like (fst c)))
           :: log,
         Some (inr (u, v))) /\
    map call_images log = pyr /\
    solver (fst c) (snd c) (zeros_like (fst c)) (zeros_like (zeros_like (fst c)))
      = inr (u0, v0) /\
    follows solver u0 v0 log u v /\
    P u v /\ shape u = shape I0 /\ shape v = shape I0.
Proof.
  intros H0 H1 Hf.
  destruct (get_pyramid_default (img_as_float32 I0) (img_as_float32 I1) h w fuel
              default_min_size H0 H1 ltac:(unfold default_min_size; lia) Hf)
    as ([c0 c1] & pyr & E & C & (hc & wc & [S0 S1] & _) & La).
  cbn [fst snd] in S0, S1.
  destruct (contract c0 c1 (zeros_like c0) (zeros_like (zeros_like c0)))
    as (u0 & v0 & Hs & Su & Sv); [congruence|reflexivity|reflexivity|].
  destruct (refine_levels_run default_min_size ltac:(unfold default_min_size; lia)
              pyr (c0, c1) u0 v0 C Su Sv
              (P_solver _ _ _ _ _ _ (P_zeros c0) Hs))
    as (log & u & v & R & Hmap & Hfol & HP & Hsh).
  exists (c0, c1), pyr, log, u0, v0, u, v. cbn [fst snd].
  split; [exact E|]. split; [exact C|]. split.
  - unfold coarse_to_fine, ndim. rewrite H0, H1. cbn [length Nat.eqb negb orb].
    rewrite E. unfold invoke. rewrite Hs. cbn [ret app].
    rewrite refine_levels_log, R. reflexivity.
  - split; [exact Hmap|]. split; [exact Hs|]. split; [exact Hfol|].
    split; [exact HP|].
    destruct (Hsh (c0, c1)) as [A B]. rewrite (La (c0, c1)) in A, B.
    split; assumption.
Qed.

End Refinement.

(** C7: on two 2D images of one shape, at the default factor and with a
    solver that meets its contract, [coarse_to_fine] invokes the solver
    exactly once per level of the pyramid, in the pyramid's coarse-to-fine
    order; the first invocation receives an all-zero flow, each later one the
    flow the one before returned, rescaled by [upscale_flow] to its level's
    shape; the driver returns what the last invocation returned. *)
Theorem coarse_to_fine_invocations (I0 I1 : ndarray) (solver : Solver)
  (h w fuel : nat) :
  shape I0 = [h; w] -> shape I1 = [h; w] ->
  solver_contract solver -> Nat.min h w <= fuel ->
  exists pyramid log u v,
    get_pyramid fuel (img_as_float32 I0) (img_as_float32 I1)
                default_downscale default_min_size = Some (inr pyramid) /\
    pyramid_chain default_downscale default_min_size pyramid /\
    coarse_to_fine fuel I0 I1 solver default_downscale
      = (log, Some (inr (u, v))) /\
    map call_images log = pyramid /\
    (exists first rest,
       log = first :: rest /\
       call_u first = zeros_like (call_I0 first) /\
       call_v first = zeros_like (call_u first)) /\
    linked solver log /\
    (forall d, solve_call solver (last log d) = inr (u, v)).
Proof.
  intros H0 H1 Hc Hf. unfold default_downscale.
  destruct (coarse_to_fine_run solver (fun _ _ => True) Hc
              (fun _ => I) (fun _ _ _ _ _ _ _ _ => I) (fun _ _ _ _ _ _ _ => I)
              I0 I1 h w fuel H0 H1 Hf)
    as (c & pyr & log & u0 & v0 & u & v & E & C & R & Hmap & Hs & Hfol & _).
  destruct (follows_linked solver log
              (mkcall (fst c) (snd c) (zeros_like (fst c))
                      (zeros_like (zeros_like (fst c))))
              u0 v0 u v Hs Hfol) as [L La].
  exists (c :: pyr), (mkcall (fst c) (snd c) (zeros_like (fst c))
                        (zeros_like (zeros_like (fst c))) :: log), u, v.
  split; [exact E|]. split; [exact C|]. split; [exact R|].
  split.
  { cbn [map]. rewrite Hmap. destruct c; reflexivity. }
  split.
  { eexists _, _. split; [reflexivity|]. split; reflexivity. }
  split; [exact L|exact La].
Qed.

Lemma upscale_flow_zero (u v : ndarray) (s : list nat) (u' v' : ndarray) :
  zero_flow u v -> upscale_flow u v s = inr (u', v') -> zero_flow u' v'.
Proof.
  intros [Zu Zv] H. unfold upscale_flow in H.
  destruct (shape u) as [|nl [|nc [|? ?]]] eqn:Su; try discriminate H.
  unfold resize in H. rewrite Su in H.
  destruct s as [|h [|w [|? ?]]]; cbn [getitem nth_error bind ret raise] in H;
    try discriminate H;
    unfold true_div in H;
    destruct (nl =? 0); cbn [bind ret raise] in H; try discriminate H;
    destruct (nc =? 0); cbn [bind ret raise] in H; try discriminate H.
  destruct (shape v) as [|ml [|mc [|? ?]]];
    cbn [bind ret raise] in H; try discriminate H.
  injection H as <- <-.
  split; intros ix; cbn [item scale array2];
    destruct ix as [|i [|j [|? ?]]]; unfold get2;
    rewrite ?Zu, ?Zv; ring.
Qed.

Lemma follows_identity_zero (log : list call) :
  forall u v u' v',
    zero_flow u v -> follows identity_solver u v log u' v' ->
    Forall (fun c => zero_flow (call_u c) (call_v c)) log.
Proof.
  induction log as [|c log IH]; intros u v u' v' Z Hf; [constructor|].
  inversion Hf as [|? ? ? ? u1 v1 ? ? Hup Hs Hf']; subst.
  pose proof (upscale_flow_zero _ _ _ _ _ Z Hup) as Zc.
  constructor; [exact Zc|].
  unfold solve_call, identity_solver in Hs. injection Hs as <- <-.
  exact (IH _ _ _ _ Zc Hf').
Qed.

Lemma identity_solver_contract : solver_contract identity_solver.
Proof.
  intros J0 J1 u v _ Hu Hv. exists u, v. repeat split; assumption.
Qed.

(** C4: for an image of shape (64, 64) given as both inputs and the solver
    that returns its input flow, [coarse_to_fine] returns a flow whose two
    components have shape (64, 64) and are zero everywhere; every invocation
    of the solver on the way received an all-zero flow. *)
Theorem coarse_to_fine_identity_solver (I : ndarray) (fuel : nat) :
  shape I = [64; 64] -> 64 <= fuel ->
  exists log u v,
    coarse_to_fine fuel I I identity_solver default_downscale
      = (log, Some (inr (u, v))) /\
    shape u = [64; 64] /\ shape v = [64; 64] /\
    constant_on 64 64 u 0 /\ constant_on 64 64 v 0 /\
    Forall (fun c => zero_flow (call_u c) (call_v c)) log.
Proof.
  intros HI Hf. unfold default_downscale.
  assert (P0 : forall a, zero_flow (zeros_like a) (zeros_like (zeros_like a))).
  { intros a. split; intros ix; reflexivity. }
  assert (Ps : forall J0 J1 u v u' v',
             zero_flow u v -> identity_solver J0 J1 u v = inr (u', v') ->
             zero_flow u' v').
  { intros J0 J1 u v u' v' Z E. injection E as <- <-. exact Z. }
  destruct (coarse_to_fine_run identity_solver zero_flow identity_solver_contract
              P0 Ps upscale_flow_zero I I 64 64 fuel HI HI Hf)
    as (c & pyr & log & u0 & v0 & u & v & _ & _ & R & _ & Hs & Hfol & Z & Su & Sv).
  injection Hs as <- <-.
  eexists _, u, v. split; [exact R|].
  split; [rewrite Su; exact HI|]. split; [rewrite Sv; exact HI|].
  destruct Z as [Zu Zv].
  split; [intros i j _ _; apply Zu|]. split; [intros i j _ _; apply Zv|].
  constructor; [apply P0|].
  exact (follows_identity_zero log _ _ u v (P0 (fst c)) Hfol).
Qed.

(** C5: when the two images' shapes differ, [get_pyramid] fails with
    ShapeMismatch whatever the fuel, the factor and [min_size] are, so with
    no level built; and [coarse_to_fine] on two 2D images of different
    shapes fails with ShapeMismatch without having invoked the solver. *)
Theorem shape_mismatch_fails (I0 I1 : ndarray) :
  shape I0 <> shape I1 ->
  (forall fuel downscale min_size,
     get_pyramid fuel I0 I1 downscale min_size = Some (inl ShapeMismatch)) /\
  (ndim I0 = 2 -> ndim I1 = 2 ->
   forall fuel solver downscale,
     coarse_to_fine fuel I0 I1 solver downscale = ([], Some (inl ShapeMismatch))).
Proof.
  intros Hne. split.
  - intros fuel downscale min_size. unfold get_pyramid.
    destruct (list_eq_dec Nat.eq_dec (shape I0) (shape I1)); [contradiction|].
    reflexivity.
  - intros D0 D1 fuel solver downscale. unfold coarse_to_fine.
    rewrite D0, D1. cbn [Nat.eqb negb orb]. unfold get_pyramid.
    cbn [shape img_as_float32].
    destruct (list_eq_dec Nat.eq_dec (shape I0) (shape I1)); [contradiction|].
    reflexivity.
Qed.

(** Case analysis on a scrutinee of [H] that holds no other [match]. *)
Ltac case_scrutinee H :=
  match type of H with
  | context [match ?x with _ => _ end] =>
      lazymatch x with
      | context [match _ with _ => _ end] => fail
      | _ => destruct x
      end
  end.

(** No step after the driver's own check fails with DimensionalityError. *)
Lemma upscale_flow_error (u v : ndarray) (s : list nat) (e : exn) :
  upscale_flow u v s = inl e -> e <> DimensionalityError.
Proof.
  unfold upscale_flow, getitem, true_div, resize, bind, ret, raise.
  intros H.
  repeat case_scrutinee H;
    try discriminate H; injection H as <-; unfold DimensionalityError; discriminate.
Qed.

Lemma reduce_once_error (downscale : Q) (pyramid : list level) (e : exn) :
  reduce_once downscale pyramid = inl e -> e <> DimensionalityError.
Proof.
  unfold reduce_once, getlast, pyramid_reduce, min_shape2, bind, ret, raise.
  intros H.
  repeat case_scrutinee H;
    try discriminate H; injection H as <-; unfold DimensionalityError; discriminate.
Qed.

Lemma pyramid_loop_error (fuel : nat) (downscale : Q) (min_size : Z) :
  forall (pyramid : list level) (size : nat) (e : exn),
    pyramid_loop fuel downscale min_size pyramid size = Some (inl e) ->
    e <> DimensionalityError.
Proof.
  induction fuel as [|fuel IH]; intros pyramid size e; cbn [pyramid_loop];
    destruct (min_size <? Z.of_nat size)%Z; try discriminate.
  destruct (reduce_once downscale pyramid) as [e'|[p' s']] eqn:R.
  - intros H. injection H as <-. exact (reduce_once_error _ _ _ R).
  - apply IH.
Qed.

Lemma get_pyramid_error (fuel : nat) (I0 I1 : ndarray) (downscale : Q)
  (min_size : Z) (e : exn) :
  get_pyramid fuel I0 I1 downscale min_size = Some (inl e) ->
  e <> DimensionalityError.
Proof.
  unfold get_pyramid.
  destruct (list_eq_dec Nat.eq_dec (shape I0) (shape I1)).
  - destruct (min_shape2 I0) as [e'|size] eqn:M.
    + intros H. injection H as <-. unfold min_shape2, raise, ret in M.
      destruct (firstn 2 (shape I0)); [injection M as <-|]; unfold DimensionalityError; discriminate.
    + apply pyramid_loop_error.
  - intros H. injection H as <-. unfold ShapeMismatch, DimensionalityError, raise. discriminate.
Qed.

Lemma refine_levels_error (solver : Solver) (levels : list level) :
  forall (u v : ndarray) (log : list call) (e : exn),
    snd (refine_levels solver levels u v log) = inl e ->
    e <> DimensionalityError.
Proof.
  induction levels as [|[J0 J1] levels IH]; intros u v log e; cbn [refine_levels].
  - discriminate.
  - destruct (upscale_flow u v (shape J0)) as [e'|[u1 v1]] eqn:U.
    + cbn [snd]. intros H. injection H as <-. exact (upscale_flow_error _ _ _ _ U).
    + unfold invoke. destruct (solver J0 J1 u1 v1) as [msg|[u2 v2]].
      * cbn [snd raise]. intros H. injection H as <-. unfold DimensionalityError. discriminate.
      * cbn [ret]. apply IH.
Qed.

(** C6: when one of the two inputs is not 2D, [coarse_to_fine] fails with
    DimensionalityError whatever the fuel is (so before the pyramid is
    built) and with no solver invocation; on two 2D inputs it never ends in
    that error. *)
Theorem dimensionality_error (I0 I1 : ndarray) (solver : Solver)
  (downscale : Q) (fuel : nat) :
  (ndim I0 <> 2 \/ ndim I1 <> 2 ->
   coarse_to_fine fuel I0 I1 solver downscale
     = ([], Some (inl DimensionalityError))) /\
  (ndim I0 = 2 -> ndim I1 = 2 ->
   snd (coarse_to_fine fuel I0 I1 solver downscale)
     <> Some (inl DimensionalityError)).
Proof.
  split.
  - intros H. unfold coarse_to_fine.
    destruct (Nat.eqb_spec (ndim I0) 2) as [E0|N0];
      destruct (Nat.eqb_spec (ndim I1) 2) as [E1|N1];
      cbn [negb orb]; try reflexivity.
    destruct H; contradiction.
  - intros D0 D1. unfold coarse_to_fine. rewrite D0, D1. cbn [Nat.eqb negb orb].
    destruct (get_pyramid fuel (img_as_float32 I0) (img_as_float32 I1)
                downscale default_min_size) as [[e|pyramid]|] eqn:G.
    + cbn [snd]. intros H. injection H as ->.
      exact (get_pyramid_error _ _ _ _ _ _ G eq_refl).
    + destruct pyramid as [|[P0 P1] rest]; [cbn [snd]; unfold DimensionalityError, raise; discriminate|].
      unfold invoke.
      destruct (solver P0 P1 (zeros_like P0) (zeros_like (zeros_like P0)))
        as [msg|[u v]].
      * cbn [snd raise]. unfold DimensionalityError. discriminate.
      * cbn [ret].
        destruct (refine_levels solver rest u v
                    ([] ++ [mkcall P0 P1 (zeros_like P0)
                              (zeros_like (zeros_like P0))])) as [log r] eqn:R.
        cbn [snd]. intros H. injection H as ->.
        assert (S : snd (refine_levels solver rest u v
                    ([] ++ [mkcall P0 P1 (zeros_like P0)
                              (zeros_like (zeros_like P0))]))
                    = inl DimensionalityError) by (rewrite R; reflexivity).
        exact (refine_levels_error _ _ _ _ _ _ S eq_refl).
    + cbn [snd]. discriminate.
Qed.

(** With [min_size <= 0] the loop never ends on images that are not empty:
    a dimension of 1 is reduced to 1. *)
Lemma pyramid_loop_diverges (min_size : Z) (fuel : nat) :
  (min_size <= 0)%Z ->
  forall (pyramid : list level) (top : level) (rest : list level) (h w : nat),
    rev pyramid = top :: rest -> same2d top h w -> 1 <= h -> 1 <= w ->
    pyramid_loop fuel 2 min_size pyramid (Nat.min h w) = None.
Proof.
  intros Hm. induction fuel as [|fuel IH]; intros pyramid top rest h w Hr Ht Hh Hw;
    cbn [pyramid_loop];
    destruct (Z.ltb_spec min_size (Z.of_nat (Nat.min h w))) as [L|L]; try lia;
    [reflexivity|].
  destruct (reduce_once_default pyramid top rest h w Hr Ht) as (J & -> & HJ).
  cbv beta iota.
  pose proof (reduced_dim_half h). pose proof (reduced_dim_half w).
  apply (IH (pyramid ++ [J]) J (top :: rest)); try assumption; try lia.
  rewrite rev_unit, Hr. reflexivity.
Qed.

Lemma get_pyramid_diverges (I0 I1 : ndarray) (h w : nat) (min_size : Z) (fuel : nat) :
  shape I0 = [h; w] -> shape I1 = [h; w] -> 1 <= h -> 1 <= w ->
  (min_size <= 0)%Z ->
  get_pyramid fuel I0 I1 2 min_size = None.
Proof.
  intros H0 H1 Hh Hw Hm. unfold get_pyramid.
  destruct (list_eq_dec Nat.eq_dec (shape I0) (shape I1)); [|congruence].
  rewrite (min_shape2_2d I0 h w H0).
  apply (pyramid_loop_diverges min_size fuel Hm [(I0, I1)] (I0, I1) [] h w);
    try assumption; [reflexivity|split; assumption].
Qed.

(** *** Finite differences: further properties *)

Lemma index_before_last_short (len : nat) :
  len < 2 -> index len (-2) = inl IndexError.
Proof.
  intros H. unfold index.
  replace ((0 <=? -2)%Z) with false by reflexivity. cbn [andb].
  destruct (Z.leb_spec (- Z.of_nat len) (-2)); [lia|reflexivity].
Qed.

Lemma index_first (len : nat) : 1 <= len -> index len 0 = inr 0.
Proof.
  intros H. unfold index.
  destruct (Z.ltb_spec 0 (Z.of_nat len)); [reflexivity|lia].
Qed.

Lemma index_second (len : nat) : 2 <= len -> index len 1 = inr 1.
Proof.
  intros H. unfold index.
  destruct (Z.ltb_spec 1 (Z.of_nat len)); [reflexivity|lia].
Qed.

Lemma index_second_short (len : nat) : len < 2 -> index len 1 = inl IndexError.
Proof.
  intros H. unfold index.
  destruct (Z.ltb_spec 1 (Z.of_nat len)); [lia|].
  cbn [andb Z.leb Z.compare]. 
  destruct (Z.leb_spec (- Z.of_nat len) 1); reflexivity.
Qed.

(** [forward_diff] sample by sample: column [j] of [p_x] is the difference
    of columns [j'] and [j' + 1] of [p], where [j'] is [j] kept at most
    [nc - 2]; rows likewise. *)
Lemma forward_diff_pointwise (p : ndarray) (nl nc : nat) :
  shape p = [nl; nc] -> 2 <= nl -> 2 <= nc ->
  exists p_x p_y,
    forward_diff p = inr (p_x, p_y) /\
    shape p_x = [nl; nc] /\ shape p_y = [nl; nc] /\
    (forall i j, j < nc ->
       (get2 p_x i j ==
        get2 p i (Nat.min j (nc - 2)) - get2 p i (S (Nat.min j (nc - 2))))%Q) /\
    (forall i j, i < nl ->
       (get2 p_y i j ==
        get2 p (Nat.min i (nl - 2)) j - get2 p (S (Nat.min i (nl - 2))) j)%Q).
Proof.
  intros Hs Hl Hc. unfold forward_diff. rewrite Hs.
  rewrite (index_before_last nc Hc), (index_last nc) by lia.
  rewrite (index_before_last nl Hl), (index_last nl) by lia.
  cbn [bind ret]. eexists _, _. split; [reflexivity|].
  split; [reflexivity|]. split; [reflexivity|].
  split.
  - intros i j Hj. unfold get2 at 1. cbn [item array2].
    destruct (Nat.eqb_spec j (nc - 1)) as [->|Hne].
    + replace (S (nc - 2) <? nc) with true by (symmetry; apply Nat.ltb_lt; lia).
      replace (Nat.min (nc - 1) (nc - 2)) with (nc - 2) by lia. reflexivity.
    + replace (S j <? nc) with true by (symmetry; apply Nat.ltb_lt; lia).
      replace (Nat.min j (nc - 2)) with j by lia. reflexivity.
  - intros i j Hi. unfold get2 at 1. cbn [item array2].
    destruct (Nat.eqb_spec i (nl - 1)) as [->|Hne].
    + replace (S (nl - 2) <? nl) with true by (symmetry; apply Nat.ltb_lt; lia).
      replace (Nat.min (nl - 1) (nl - 2)) with (nl - 2) by lia. reflexivity.
    + replace (S i <? nl) with true by (symmetry; apply Nat.ltb_lt; lia).
      replace (Nat.min i (nl - 2)) with i by lia. reflexivity.
Qed.

(** [div] sample by sample: the backward difference of [p1] at column
    [max j 1] plus that of [p2] at row [max i 1]. *)
Lemma div_pointwise (p1 p2 : ndarray) (nl nc : nat) :
  shape p1 = [nl; nc] -> shape p2 = [nl; nc] -> 2 <= nl -> 2 <= nc ->
  exists d,
    div p1 p2 = inr d /\ shape d = [nl; nc] /\
    (forall i j,
       (get2 d i j ==
        (get2 p1 i (Nat.max j 1) - get2 p1 i (Nat.max j 1 - 1))
        + (get2 p2 (Nat.max i 1) j - get2 p2 (Nat.max i 1 - 1) j))%Q).
Proof.
  intros H1 H2 Hl Hc. unfold div. rewrite H1, H2.
  rewrite (index_second nc Hc), (index_first nc) by lia.
  rewrite (index_second nl Hl), (index_first nl) by lia.
  cbn [bind ret]. rewrite add_same_shape by reflexivity.
  eexists. split; [reflexivity|]. split; [reflexivity|].
  intros i j. unfold get2 at 1. cbn [item array2].
  destruct j as [|j]; destruct i as [|i]; cbn [Nat.eqb Nat.leb Nat.max Nat.sub];
    rewrite ?Nat.sub_0_r, ?Nat.max_0_r; reflexivity.
Qed.

(** X1: on a grid with at least two rows and two columns, [forward_diff]
    returns [p[i][j] - p[i][j+1]] in every column of [p_x] but the last and
    [p[i][j] - p[i+1][j]] in every row of [p_y] but the last; the last column
    of [p_x] repeats the column before it and the last row of [p_y] the row
    before it. *)
Theorem forward_diff_samples (p : ndarray) (nl nc : nat) :
  shape p = [nl; nc] -> 2 <= nl -> 2 <= nc ->
  exists p_x p_y,
    forward_diff p = inr (p_x, p_y) /\
    (forall i j, S j < nc -> (get2 p_x i j == get2 p i j - get2 p i (S j))%Q) /\
    (forall i, (get2 p_x i (nc - 1) == get2 p_x i (nc - 2))%Q) /\
    (forall i j, S i < nl -> (get2 p_y i j == get2 p i j - get2 p (S i) j)%Q) /\
    (forall j, (get2 p_y (nl - 1) j == get2 p_y (nl - 2) j)%Q).
Proof.
  intros Hs Hl Hc.
  destruct (forward_diff_pointwise p nl nc Hs Hl Hc)
    as (p_x & p_y & E & _ & _ & Hx & Hy).
  exists p_x, p_y. split; [exact E|]. repeat split.
  - intros i j Hj. rewrite (Hx i j) by lia.
    replace (Nat.min j (nc - 2)) with j by lia. reflexivity.
  - intros i. rewrite (Hx i (nc - 1)), (Hx i (nc - 2)) by lia.
    replace (Nat.min (nc - 1) (nc - 2)) with (nc - 2) by lia.
    replace (Nat.min (nc - 2) (nc - 2)) with (nc - 2) by lia. reflexivity.
  - intros i j Hi. rewrite (Hy i j) by lia.
    replace (Nat.min i (nl - 2)) with i by lia. reflexivity.
  - intros j. rewrite (Hy (nl - 1) j), (Hy (nl - 2) j) by lia.
    replace (Nat.min (nl - 1) (nl - 2)) with (nl - 2) by lia.
    replace (Nat.min (nl - 2) (nl - 2)) with (nl - 2) by lia. reflexivity.
Qed.

(** X2: on a 2D grid, [forward_diff] raises IndexError exactly when the
    grid has fewer than two rows or fewer than two columns. *)
Theorem forward_diff_fails_iff (p : ndarray) (nl nc : nat) :
  shape p = [nl; nc] ->
  (forward_diff p = inl IndexError <-> nl < 2 \/ nc < 2) /\
  (forall e, forward_diff p = inl e -> e = IndexError).
Proof.
  intros Hs.
  destruct (Nat.lt_ge_cases nc 2) as [Hc|Hc].
  - assert (E : forward_diff p = inl IndexError).
    { unfold forward_diff. rewrite Hs, (index_before_last_short nc Hc). reflexivity. }
    split; [split; [right; exact Hc|intros _; exact E]|].
    intros e He. congruence.
  - destruct (Nat.lt_ge_cases nl 2) as [Hl|Hl].
    + assert (E : forward_diff p = inl IndexError).
      { unfold forward_diff.
        rewrite Hs, (index_before_last nc Hc), (index_last nc) by lia.
        cbn [bind]. rewrite (index_before_last_short nl Hl). reflexivity. }
      split; [split; [left; exact Hl|intros _; exact E]|].
      intros e He. congruence.
    + destruct (forward_diff_pointwise p nl nc Hs Hl Hc) as (p_x & p_y & E & _).
      split; [split|]; [rewrite E; discriminate | lia | rewrite E; discriminate].
Qed.


(** X4: on two 2D grids of one shape, [div] raises IndexError exactly when
    they have fewer than two rows or fewer than two columns; otherwise it
    returns a grid of their shape. *)
Theorem div_fails_iff (p1 p2 : ndarray) (nl nc : nat) :
  shape p1 = [nl; nc] -> shape p2 = [nl; nc] ->
  (div p1 p2 = inl IndexError <-> nl < 2 \/ nc < 2) /\
  (2 <= nl -> 2 <= nc -> exists d, div p1 p2 = inr d /\ shape d = [nl; nc]).
Proof.
  intros H1 H2. split.
  - destruct (Nat.lt_ge_cases nc 2) as [Hc|Hc].
    + split; [intros _; right; exact Hc|intros _].
      unfold div. rewrite H1, H2, (index_second_short nc Hc). reflexivity.
    + destruct (Nat.lt_ge_cases nl 2) as [Hl|Hl].
      * split; [intros _; left; exact Hl|intros _].
        unfold div.
        rewrite H1, H2, (index_second nc Hc), (index_first nc) by lia.
        cbn [bind]. rewrite (index_second_short nl Hl). reflexivity.
      * destruct (div_pointwise p1 p2 nl nc H1 H2 Hl Hc) as (d & E & _).
        split; [rewrite E; discriminate|lia].
  - intros Hl Hc.
    destruct (div_pointwise p1 p2 nl nc H1 H2 Hl Hc) as (d & E & S & _).
    exists d. split; assumption.
Qed.

(** X5: the divergence of two constant grids (at least two rows and two
    columns) is zero everywhere. *)
Theorem div_constant (p1 p2 : ndarray) (nl nc : nat) (c1 c2 : Q) :
  shape p1 = [nl; nc] -> shape p2 = [nl; nc] -> 2 <= nl -> 2 <= nc ->
  constant_on nl nc p1 c1 -> constant_on nl nc p2 c2 ->
  exists d, div p1 p2 = inr d /\ shape d = shape p1 /\ constant_on nl nc d 0.
Proof.
  intros H1 H2 Hl Hc C1 C2.
  destruct (div_pointwise p1 p2 nl nc H1 H2 Hl Hc) as (d & E & S & Hd).
  exists d. split; [exact E|]. split; [congruence|].
  intros i j Hi Hj. rewrite (Hd i j).
  rewrite (C1 i (Nat.max j 1)), (C1 i (Nat.max j 1 - 1)) by lia.
  rewrite (C2 (Nat.max i 1) j), (C2 (Nat.max i 1 - 1) j) by lia.
  ring.
Qed.


(** *** warp: further properties *)





(** Along one axis of length [len], an integer coordinate [r] inside the
    axis: weight 0 on the second tap, and the first tap is [r]. *)
Lemma axis_integer (len r : nat) (c : Q) :
  r < len -> (c == inject_Z (Z.of_nat r))%Q ->
  (map_coordinate len c - inject_Z (Qfloor (map_coordinate len c)) == 0)%Q /\
  edge_index len (Qfloor (map_coordinate len c) + 0) = r.
Proof.
  intros Hr Hc.
  assert (B1 : (0 <= inject_Z (Z.of_nat r))%Q).
  { change 0%Q with (inject_Z 0). rewrite <- Zle_Qle. lia. }
  assert (B2 : (inject_Z (Z.of_nat r) <= inject_Z (Z.of_nat len - 1))%Q).
  { rewrite <- Zle_Qle. lia. }
  assert (E : map_coordinate len c = c).
  { unfold map_coordinate.
    destruct (Qle_bool 0 c) eqn:B.
    - destruct (Qle_bool c (inject_Z (Z.of_nat len - 1))) eqn:B'; [reflexivity|].
      assert (c <= inject_Z (Z.of_nat len - 1))%Q by lra.
      apply Qle_bool_iff in H. congruence.
    - assert (0 <= c)%Q by lra. apply Qle_bool_iff in H. congruence. }
  rewrite E.
  assert (F : Qfloor c = Z.of_nat r).
  { apply Qfloor_unique; [lra|]. rewrite inject_Z_plus.
    change (inject_Z 1) with 1%Q. lra. }
  rewrite F. split; [lra|].
  rewrite Z.add_0_r. apply edge_index_inside. exact Hr.
Qed.

Lemma interp_linear_integer (I : ndarray) (nl nc r c : nat) (y x : Q) :
  r < nl -> c < nc ->
  (y == inject_Z (Z.of_nat r))%Q -> (x == inject_Z (Z.of_nat c))%Q ->
  (interp_linear I nl nc y x == get2 I r c)%Q.
Proof.
  intros Hr Hc Hy Hx. unfold interp_linear. cbv zeta.
  destruct (axis_integer nl r y Hr Hy) as [Ty Y0].
  destruct (axis_integer nc c x Hc Hx) as [Tx X0].
  rewrite Ty, Tx, Y0, X0. ring.
Qed.

(** What [warp] returns with its default grids on a flow of the image's
    shape, and with explicit grids of the flow's shape. *)
Lemma warp_default_run (I u v : ndarray) (nl nc : nat) :
  shape I = [nl; nc] -> shape u = [nl; nc] -> shape v = [nl; nc] ->
  warp I u v None None =
  inr {| shape := [nl; nc];
         item := fun ix =>
           interp_linear I nl nc
             (item (fst (meshgrid_ij nl nc)) ix + item v ix)
             (item (snd (meshgrid_ij nl nc)) ix + item u ix) |}.
Proof.
  intros HI Hu Hv. unfold warp. rewrite HI. unfold meshgrid_ij. cbn [bind ret].
  rewrite add_same_shape by (rewrite Hv; reflexivity). cbn [bind].
  rewrite add_same_shape by (rewrite Hu; reflexivity). cbn [bind].
  unfold map_coordinates. rewrite HI. cbn [shape array2].
  destruct (list_eq_dec Nat.eq_dec [nl; nc] [nl; nc]) as [_|N]; [|contradiction].
  reflexivity.
Qed.

Lemma warp_grids_run (I u v x y : ndarray) (nl nc : nat) :
  shape I = [nl; nc] -> shape x = shape y -> shape u = shape y -> shape v = shape y ->
  warp I u v (Some x) (Some y) =
  inr {| shape := shape y;
         item := fun ix =>
           interp_linear I nl nc (item y ix + item v ix) (item x ix + item u ix) |}.
Proof.
  intros HI Hx Hu Hv. unfold warp. cbn [bind ret].
  rewrite add_same_shape by congruence. cbn [bind].
  rewrite add_same_shape by congruence. cbn [bind].
  unfold map_coordinates. rewrite HI. cbn [shape]. rewrite Hx.
  destruct (list_eq_dec Nat.eq_dec (shape y) (shape y)) as [_|N]; [|contradiction].
  reflexivity.
Qed.


(** X8: with explicit grids, wherever the displaced position
    [(y + v, x + u)] is an integer point (r, c) of the image, [warp] returns
    the image's sample at (r, c): no blending happens at integer places. *)
Theorem warp_at_integer_positions (I u v x y : ndarray) (nl nc : nat) :
  shape I = [nl; nc] -> shape x = shape y -> shape u = shape y -> shape v = shape y ->
  exists out,
    warp I u v (Some x) (Some y) = inr out /\ shape out = shape y /\
    (forall ix r c, r < nl -> c < nc ->
       (item y ix + item v ix == inject_Z (Z.of_nat r))%Q ->
       (item x ix + item u ix == inject_Z (Z.of_nat c))%Q ->
       (item out ix == get2 I r c)%Q).
Proof.
  intros HI Hx Hu Hv. rewrite (warp_grids_run I u v x y nl nc HI Hx Hu Hv).
  eexists. split; [reflexivity|]. split; [reflexivity|].
  intros ix r c Hr Hc Ey Ex. cbn [item].
  apply interp_linear_integer; assumption.
Qed.

(** X9: with the default grids, the flow that is 1/2 everywhere undoes the
    grids' offset: [warp] then returns the image's own samples. *)
Theorem warp_half_pixel_flow (I u v : ndarray) (nl nc : nat) :
  shape I = [nl; nc] -> shape u = [nl; nc] -> shape v = [nl; nc] ->
  constant_on nl nc u (1 # 2) -> constant_on nl nc v (1 # 2) ->
  exists out,
    warp I u v None None = inr out /\ shape out = shape I /\
    (forall i j, i < nl -> j < nc -> (get2 out i j == get2 I i j)%Q).
Proof.
  intros HI Hu Hv Cu Cv. rewrite (warp_default_run I u v nl nc HI Hu Hv).
  eexists. split; [reflexivity|]. split; [symmetry; exact HI|].
  intros i j Hi Hj. unfold get2 at 1. cbn [item meshgrid_ij fst snd array2].
  apply interp_linear_integer; try assumption.
  - pose proof (Cv i j Hi Hj) as E. unfold get2 in E. rewrite E.
    unfold arange_minus_half. ring.
  - pose proof (Cu i j Hi Hj) as E. unfold get2 in E. rewrite E.
    unfold arange_minus_half. ring.
Qed.

(** *** upscale_flow: further properties *)

Lemma nearest_source_factor (n m k : nat) :
  0 < n -> 1 <= m -> nearest_source n (m * n) k = k / m.
Proof.
  intros Hn Hm. unfold nearest_source.
  pose proof (Nat.div_mod_eq k m) as E.
  pose proof (Nat.mod_upper_bound k m ltac:(lia)) as B.
  set (q := k / m) in *. set (s := k mod m) in *.
  symmetry. apply (Nat.div_unique _ _ _ ((2 * s + 1) * n)); nia.
Qed.


Lemma inject_nat_mul (m n : nat) :
  (inject_Z (Z.of_nat (m * n)) == inject_Z (Z.of_nat m) * inject_Z (Z.of_nat n))%Q.
Proof.
  rewrite Nat2Z.inj_mul, inject_Z_mult. reflexivity.
Qed.

(** X10: rescaling a non-empty flow field by an integer factor [m] in both
    directions repeats every sample over an [m] x [m] block and multiplies
    it by [m]. *)
Theorem upscale_flow_integer_factor (u v : ndarray) (h w m : nat) :
  shape u = [h; w] -> shape v = [h; w] -> 0 < h -> 0 < w -> 1 <= m ->
  exists u' v',
    upscale_flow u v [m * h; m * w] = inr (u', v') /\
    (forall i j, i < m * h -> j < m * w ->
       (get2 u' i j == inject_Z (Z.of_nat m) * get2 u (i / m) (j / m))%Q /\
       (get2 v' i j == inject_Z (Z.of_nat m) * get2 v (i / m) (j / m))%Q).
Proof.
  intros Hu Hv Hh Hw Hm.
  rewrite (upscale_flow_run u v h w h w (m * h) (m * w) Hu Hv Hh Hw).
  eexists _, _. split; [reflexivity|].
  intros i j Hi Hj.
  pose proof (inject_nat_nonzero h Hh). pose proof (inject_nat_nonzero w Hw).
  split; unfold get2; cbn [item scale array2]; unfold get2;
    rewrite !nearest_source_factor by assumption;
    rewrite !inject_nat_mul; field; assumption.
Qed.



(** *** get_pyramid: further properties *)

Lemma reduced_dim_default (d : nat) : reduced_dim 2 d = (d + 1) / 2.
Proof.
  pose proof (reduced_dim_half d) as [L U].
  apply (Nat.div_unique _ _ _ (d + 1 - 2 * reduced_dim 2 d)); lia.
Qed.

Lemma same2d_unique (l : level) (h w h' w' : nat) :
  same2d l h w -> same2d l h' w' -> h = h' /\ w = w'.
Proof.
  intros [A _] [B _]. rewrite A in B. injection B as -> ->. split; reflexivity.
Qed.

Lemma pyramid_chain_pairs (downscale : Q) (min_size : Z) (pyr : list level) :
  pyramid_chain downscale min_size pyr ->
  Forall (fun l => shape (fst l) = shape (snd l) /\ ndim (fst l) = 2) pyr.
Proof.
  induction 1 as [l h w [A B]|c f rest h w _ _ [A B] _ IH].
  - constructor; [|constructor]. unfold ndim. rewrite A, B. split; reflexivity.
  - constructor; [|exact IH]. unfold ndim. rewrite A, B. split; reflexivity.
Qed.

Lemma pyramid_chain_adjacent (downscale : Q) (min_size : Z) (pyr : list level) :
  pyramid_chain downscale min_size pyr ->
  forall k coarse fine,
    nth_error pyr k = Some coarse -> nth_error pyr (S k) = Some fine ->
    shape (fst coarse) = map (reduced_dim downscale) (shape (fst fine)) /\
    (exists m, min_shape2 (fst fine) = inr m /\ (min_size < Z.of_nat m)%Z).
Proof.
  induction 1 as [l h w _|c f rest h w [F0 F1] L [C0 C1] _ IH];
    intros k coarse fine Hk Hk'.
  - destruct k as [|[|k]]; discriminate Hk'.
  - destruct k as [|k].
    + cbn in Hk, Hk'. injection Hk as <-. injection Hk' as <-.
      split; [rewrite C0, F0; reflexivity|].
      exists (Nat.min h w). split; [apply min_shape2_2d; exact F0|exact L].
    + exact (IH k coarse fine Hk Hk').
Qed.

Lemma log2_up_reduced (n : nat) :
  2 <= n -> Nat.log2_up (reduced_dim 2 n) + 1 <= Nat.log2_up n.
Proof.
  intros Hn. pose proof (reduced_dim_half n) as [L U].
  destruct (Nat.log2_up_spec n ltac:(lia)) as [_ Hk].
  assert (K : 1 <= Nat.log2_up n).
  { destruct (Nat.log2_up n) eqn:E; [cbn in Hk; lia|lia]. }
  assert (P : 2 ^ Nat.log2_up n = 2 * 2 ^ (Nat.log2_up n - 1)).
  { rewrite <- Nat.pow_succ_r'. f_equal. lia. }
  assert (R : Nat.log2_up (reduced_dim 2 n) <= Nat.log2_up n - 1).
  { apply Nat.log2_up_le_pow2; lia. }
  lia.
Qed.

Lemma pyramid_chain_length (min_size : Z) (rest : list level) :
  (1 <= min_size)%Z ->
  forall (c : level) (hc wc : nat) (d : level) (hl wl : nat),
    pyramid_chain 2 min_size (c :: rest) ->
    same2d c hc wc -> same2d (last (c :: rest) d) hl wl ->
    length (c :: rest) + Nat.log2_up (Nat.min hc wc)
      <= Nat.log2_up (Nat.min hl wl) + 1.
Proof.
  intros Hm. induction rest as [|f rest IH]; intros c hc wc d hl wl Hc Sc Sl.
  - cbn [last] in Sl. destruct (same2d_unique _ _ _ _ _ Sc Sl) as [-> ->].
    cbn [length]. lia.
  - inversion Hc as [|c' f' rest' h w Sf L Sc' Hc']; subst.
    destruct (same2d_unique _ _ _ _ _ Sc Sc') as [-> ->].
    assert (Sl' : same2d (last (f :: rest) d) hl wl) by exact Sl.
    pose proof (IH f h w d hl wl Hc' Sf Sl') as B.
    rewrite reduced_min.
    pose proof (log2_up_reduced (Nat.min h w) ltac:(lia)).
    cbn [length] in *. lia.
Qed.

(** X13: for two 2D images of one shape, [min_size >= 1] and the default
    factor, the pyramid [get_pyramid] returns keeps, at every level, two 2D
    images of one shape; each level has the shape of the next (finer) one
    with every dimension [d] replaced by [(d + 1) / 2]; and every level that
    was reduced had its smaller dimension above [min_size]. *)
Theorem get_pyramid_structure (I0 I1 : ndarray) (h w fuel : nat) (min_size : Z) :
  shape I0 = [h; w] -> shape I1 = [h; w] ->
  (1 <= min_size)%Z -> Nat.min h w <= fuel ->
  exists pyramid,
    get_pyramid fuel I0 I1 default_downscale min_size = Some (inr pyramid) /\
    Forall (fun l => shape (fst l) = shape (snd l) /\ ndim (fst l) = 2) pyramid /\
    (forall k coarse fine,
       nth_error pyramid k = Some coarse ->
       nth_error pyramid (S k) = Some fine ->
       shape (fst coarse) = map (fun d => (d + 1) / 2) (shape (fst fine)) /\
       (exists m, min_shape2 (fst fine) = inr m /\ (min_size < Z.of_nat m)%Z)).
Proof.
  intros H0 H1 Hm Hf.
  destruct (get_pyramid_default I0 I1 h w fuel min_size H0 H1 Hm Hf)
    as (c & pyr & E & C & _ & _).
  exists (c :: pyr). split; [exact E|].
  split; [exact (pyramid_chain_pairs _ _ _ C)|].
  intros k coarse fine Hk Hk'.
  destruct (pyramid_chain_adjacent _ _ _ C k coarse fine Hk Hk') as [A B].
  split; [|exact B]. rewrite A. apply map_ext. exact reduced_dim_default.
Qed.

(** X14: under the same conditions the pyramid has at most
    [1 + ceil(log2(min(h, w)))] levels. *)
Theorem get_pyramid_length (I0 I1 : ndarray) (h w fuel : nat) (min_size : Z) :
  shape I0 = [h; w] -> shape I1 = [h; w] ->
  (1 <= min_size)%Z -> Nat.min h w <= fuel ->
  exists pyramid,
    get_pyramid fuel I0 I1 default_downscale min_size = Some (inr pyramid) /\
    1 <= length pyramid /\
    length pyramid <= S (Nat.log2_up (Nat.min h w)).
Proof.
  intros H0 H1 Hm Hf.
  destruct (get_pyramid_default I0 I1 h w fuel min_size H0 H1 Hm Hf)
    as (c & pyr & E & C & (hc & wc & Sc & _) & La).
  exists (c :: pyr). split; [exact E|]. split; [cbn [length]; lia|].
  assert (Sl : same2d (last (c :: pyr) c) h w).
  { rewrite (La c). split; assumption. }
  pose proof (pyramid_chain_length min_size pyr Hm c hc wc c h w C Sc Sl). lia.
Qed.

(** X15: with a factor of 1 or less and images whose smaller dimension
    exceeds [min_size], the first pass of the loop fails in [pyramid_reduce]:
    [get_pyramid] ends in a ValueError about the scale factor, and
    [coarse_to_fine] passes it on without having invoked the solver. *)
Theorem get_pyramid_rejects_factor (I0 I1 : ndarray) (h w fuel : nat)
  (downscale : Q) (min_size : Z) :
  shape I0 = [h; w] -> shape I1 = [h; w] -> (downscale <= 1)%Q -> 1 <= fuel ->
  ((min_size < Z.of_nat (Nat.min h w))%Z ->
   get_pyramid fuel I0 I1 downscale min_size
     = Some (inl (ValueError "scale factor must be greater than 1"))) /\
  ((default_min_size < Z.of_nat (Nat.min h w))%Z ->
   forall solver,
     coarse_to_fine fuel I0 I1 solver downscale
       = ([], Some (inl (ValueError "scale factor must be greater than 1")))).
Proof.
  intros H0 H1 Hd Hf.
  assert (G : forall J0 J1 m,
             shape J0 = [h; w] -> shape J1 = [h; w] ->
             (m < Z.of_nat (Nat.min h w))%Z ->
             get_pyramid fuel J0 J1 downscale m
               = Some (inl (ValueError "scale factor must be greater than 1"))).
  { intros J0 J1 m S0 S1 L. unfold get_pyramid.
    destruct (list_eq_dec Nat.eq_dec (shape J0) (shape J1)); [|congruence].
    rewrite (min_shape2_2d J0 h w S0).
    destruct fuel as [|fuel]; [lia|]. cbn [pyramid_loop].
    destruct (Z.ltb_spec m (Z.of_nat (Nat.min h w))); [|lia].
    unfold reduce_once, getlast, pyramid_reduce. cbn [rev app bind ret fst].
    apply Qle_bool_iff in Hd. rewrite Hd. reflexivity. }
  split.
  - intros L. exact (G I0 I1 min_size H0 H1 L).
  - intros L solver. unfold coarse_to_fine, ndim. rewrite H0, H1.
    cbn [length Nat.eqb negb orb].
    rewrite (G (img_as_float32 I0) (img_as_float32 I1) default_min_size H0 H1 L).
    reflexivity.
Qed.

(** X16: when the factor passes the check but leaves both dimensions of
    the images as they are (a factor close to 1 on small images), and the
    smaller dimension exceeds [min_size], the loop never ends. *)
Theorem get_pyramid_fixed_point (I0 I1 : ndarray) (h w : nat)
  (downscale : Q) (min_size : Z) :
  shape I0 = [h; w] -> shape I1 = [h; w] -> (1 < downscale)%Q ->
  reduced_dim downscale h = h -> reduced_dim downscale w = w ->
  (min_size < Z.of_nat (Nat.min h w))%Z ->
  forall fuel, get_pyramid fuel I0 I1 downscale min_size = None.
Proof.
  intros H0 H1 Hd Rh Rw L fuel.
  assert (B : Qle_bool downscale 1 = false).
  { destruct (Qle_bool downscale 1) eqn:E; [|reflexivity].
    apply Qle_bool_iff in E. lra. }
  assert (Loop : forall pyramid top rest,
             rev pyramid = top :: rest -> same2d top h w ->
             pyramid_loop fuel downscale min_size pyramid (Nat.min h w) = None).
  { induction fuel as [|fuel IH]; intros pyramid top rest Hr [T0 T1];
      cbn [pyramid_loop];
      (destruct (Z.ltb_spec min_size (Z.of_nat (Nat.min h w))); [|lia]);
      [reflexivity|].
    unfold reduce_once. rewrite (getlast_rev _ _ _ Hr). cbn [bind].
    unfold pyramid_reduce. rewrite B. cbn [bind ret].
    erewrite min_shape2_2d
      by (cbn [shape]; rewrite T0; cbn [map]; rewrite Rh, Rw; reflexivity).
    cbn [bind ret].
    eapply IH.
    - apply rev_unit.
    - split; cbn [fst snd shape]; [rewrite T0|rewrite T1];
        cbn [map]; rewrite Rh, Rw; reflexivity. }
  unfold get_pyramid.
  destruct (list_eq_dec Nat.eq_dec (shape I0) (shape I1)); [|congruence].
  rewrite (min_shape2_2d I0 h w H0).
  apply (Loop [(I0, I1)] (I0, I1) []); [reflexivity|split; assumption].
Qed.

(** *** coarse_to_fine: further properties *)

(** No step of the driver itself fails with a SolverFailure. *)
Lemma upscale_flow_not_solver (u v : ndarray) (s : list nat) (e : exn) (msg : string) :
  upscale_flow u v s = inl e -> e <> SolverFailure msg.
Proof.
  unfold upscale_flow, getitem, true_div, resize, bind, ret, raise.
  intros H.
  repeat case_scrutinee H;
    try discriminate H; injection H as <-; discriminate.
Qed.

Lemma reduce_once_not_solver (downscale : Q) (pyramid : list level) (e : exn)
  (msg : string) :
  reduce_once downscale pyramid = inl e -> e <> SolverFailure msg.
Proof.
  unfold reduce_once, getlast, pyramid_reduce, min_shape2, bind, ret, raise.
  intros H.
  repeat case_scrutinee H;
    try discriminate H; injection H as <-; discriminate.
Qed.

Lemma pyramid_loop_not_solver (fuel : nat) (downscale : Q) (min_size : Z)
  (msg : string) :
  forall (pyramid : list level) (size : nat) (e : exn),
    pyramid_loop fuel downscale min_size pyramid size = Some (inl e) ->
    e <> SolverFailure msg.
Proof.
  induction fuel as [|fuel IH]; intros pyramid size e; cbn [pyramid_loop];
    destruct (min_size <? Z.of_nat size)%Z; try discriminate.
  destruct (reduce_once downscale pyramid) as [e'|[p' s']] eqn:R.
  - intros H. injection H as <-. exact (reduce_once_not_solver _ _ _ _ R).
  - apply IH.
Qed.

Lemma get_pyramid_not_solver (fuel : nat) (I0 I1 : ndarray) (downscale : Q)
  (min_size : Z) (e : exn) (msg : string) :
  get_pyramid fuel I0 I1 downscale min_size = Some (inl e) ->
  e <> SolverFailure msg.
Proof.
  unfold get_pyramid.
  destruct (list_eq_dec Nat.eq_dec (shape I0) (shape I1)).
  - destruct (min_shape2 I0) as [e'|size] eqn:M.
    + intros H. injection H as <-. unfold min_shape2, raise, ret in M.
      destruct (firstn 2 (shape I0)); [injection M as <-|]; discriminate.
    + apply pyramid_loop_not_solver.
  - intros H. injection H as <-. unfold ShapeMismatch, raise. discriminate.
Qed.

(** How a run of the loop over the levels can end, in terms of the
    invocations it recorded. *)
Lemma refine_levels_outcome (solver : Solver) (levels : list level) :
  forall (u v : ndarray) (log : list call) (r : result (ndarray * ndarray)),
    refine_levels solver levels u v [] = (log, r) ->
    (forall uv, r = inr uv ->
       (log = [] /\ uv = (u, v)) \/
       (exists front c, log = front ++ [c] /\ solve_call solver c = inr uv /\
                        Forall (succeeded solver) front)) /\
    (forall msg, r = inl (SolverFailure msg) ->
       exists front c, log = front ++ [c] /\ solve_call solver c = inl msg /\
                       Forall (succeeded solver) front).
Proof.
  induction levels as [|[J0 J1] levels IH]; intros u v log r; cbn [refine_levels].
  - intros H. injection H as <- <-. split.
    + intros uv E. injection E as <-. left. split; reflexivity.
    + intros msg E. discriminate E.
  - destruct (upscale_flow u v (shape J0)) as [e|[u1 v1]] eqn:U.
    + intros H. injection H as <- <-. split.
      * intros uv E. discriminate E.
      * intros msg E. injection E as ->.
        exfalso. exact (upscale_flow_not_solver _ _ _ _ msg U eq_refl).
    + unfold invoke. destruct (solver J0 J1 u1 v1) as [msg0|[u2 v2]] eqn:S.
      * intros H. injection H as <- <-. split.
        -- intros uv E. discriminate E.
        -- intros msg E. injection E as <-.
           exists [], (mkcall J0 J1 u1 v1). repeat split; [exact S|constructor].
      * cbn [ret]. rewrite refine_levels_log.
        destruct (refine_levels solver levels u2 v2 []) as [log2 r2] eqn:R.
        cbn [fst snd app]. intros H. injection H as <- <-.
        destruct (IH u2 v2 log2 r2 R) as [Ok Ko].
        assert (S0 : succeeded solver (mkcall J0 J1 u1 v1))
          by (exists (u2, v2); exact S).
        split.
        -- intros uv E. right.
           destruct (Ok uv E) as [[-> ->]|(front & c & -> & Hc & Hf)].
           ++ exists [], (mkcall J0 J1 u1 v1). repeat split; [exact S|constructor].
           ++ exists (mkcall J0 J1 u1 v1 :: front), c.
              repeat split; [exact Hc|constructor; assumption].
        -- intros msg E.
           destruct (Ko msg E) as (front & c & -> & Hc & Hf).
           exists (mkcall J0 J1 u1 v1 :: front), c.
           repeat split; [exact Hc|constructor; assumption].
Qed.

(** X17: whenever [coarse_to_fine] returns a flow, that flow is what the
    last recorded invocation of the solver returned, and whenever it ends in
    a SolverFailure, the last recorded invocation failed with that message;
    in both cases every earlier invocation had returned a flow (nothing is
    retried and nothing runs after a failure). *)
Theorem coarse_to_fine_last_call (fuel : nat) (I0 I1 : ndarray) (solver : Solver)
  (downscale : Q) (log : list call) (r : result (ndarray * ndarray)) :
  coarse_to_fine fuel I0 I1 solver downscale = (log, Some r) ->
  (forall uv, r = inr uv ->
     exists front c, log = front ++ [c] /\ solve_call solver c = inr uv /\
                     Forall (succeeded solver) front) /\
  (forall msg, r = inl (SolverFailure msg) ->
     exists front c, log = front ++ [c] /\ solve_call solver c = inl msg /\
                     Forall (succeeded solver) front).
Proof.
  unfold coarse_to_fine.
  destruct (negb (ndim I0 =? 2) || negb (ndim I1 =? 2)).
  { intros H. injection H as <- <-. split; intros ? E; discriminate E. }
  destruct (get_pyramid fuel (img_as_float32 I0) (img_as_float32 I1)
              downscale default_min_size) as [[e|pyramid]|] eqn:G.
  - intros H. injection H as <- <-. split; [intros ? E; discriminate E|].
    intros msg E. injection E as ->.
    exfalso. exact (get_pyramid_not_solver _ _ _ _ _ _ msg G eq_refl).
  - destruct pyramid as [|[P0 P1] rest].
    { intros H. injection H as <- <-. split; intros ? E; discriminate E. }
    unfold invoke.
    destruct (solver P0 P1 (zeros_like P0) (zeros_like (zeros_like P0)))
      as [msg0|[u v]] eqn:S.
    + intros H. injection H as <- <-. split; [intros ? E; discriminate E|].
      intros msg E. injection E as <-.
      exists [], (mkcall P0 P1 (zeros_like P0) (zeros_like (zeros_like P0))).
      repeat split; [exact S|constructor].
    + cbn [ret]. rewrite refine_levels_log.
      destruct (refine_levels solver rest u v []) as [log2 r2] eqn:R.
      cbn [fst snd app]. intros H. injection H as <- <-.
      destruct (refine_levels_outcome solver rest u v log2 r2 R) as [Ok Ko].
      set (c0 := mkcall P0 P1 (zeros_like P0) (zeros_like (zeros_like P0))).
      assert (S0 : succeeded solver c0) by (exists (u, v); exact S).
      split.
      * intros uv E.
        destruct (Ok uv E) as [[-> ->]|(front & c & -> & Hc & Hf)].
        -- exists [], c0. repeat split; [exact S|constructor].
        -- exists (c0 :: front), c.
           repeat split; [exact Hc|constructor; assumption].
      * intros msg E.
        destruct (Ko msg E) as (front & c & -> & Hc & Hf).
        exists (c0 :: front), c.
        repeat split; [exact Hc|constructor; assumption].
  - discriminate.
Qed.

(** X18: when the smaller dimension of two 2D images of one shape is at
    most 16, the driver invokes the solver exactly once, on the converted
    inputs themselves with an all-zero flow, and returns that invocation's
    outcome, whatever the factor and the fuel are. *)
Theorem coarse_to_fine_single_level (I0 I1 : ndarray) (h w : nat) :
  shape I0 = [h; w] -> shape I1 = [h; w] ->
  (Z.of_nat (Nat.min h w) <= default_min_size)%Z ->
  forall fuel solver downscale,
    coarse_to_fine fuel I0 I1 solver downscale =
    ([mkcall (img_as_float32 I0) (img_as_float32 I1)
             (zeros_like (img_as_float32 I0))
             (zeros_like (zeros_like (img_as_float32 I0)))],
     Some match solver (img_as_float32 I0) (img_as_float32 I1)
                       (zeros_like (img_as_float32 I0))
                       (zeros_like (zeros_like (img_as_float32 I0))) with
          | inl msg => inl (SolverFailure msg)
          | inr uv => inr uv
          end).
Proof.
  intros H0 H1 L fuel solver downscale.
  unfold coarse_to_fine, ndim. rewrite H0, H1. cbn [length Nat.eqb negb orb].
  assert (G : get_pyramid fuel (img_as_float32 I0) (img_as_float32 I1)
                downscale default_min_size
              = Some (inr [(img_as_float32 I0, img_as_float32 I1)])).
  { unfold get_pyramid.
    destruct (list_eq_dec Nat.eq_dec (shape (img_as_float32 I0))
                (shape (img_as_float32 I1))) as [_|N];
      [|exfalso; apply N; cbn [shape img_as_float32]; congruence].
    rewrite (min_shape2_2d (img_as_float32 I0) h w H0).
    destruct fuel; cbn [pyramid_loop];
      destruct (Z.ltb_spec default_min_size (Z.of_nat (Nat.min h w))); try lia;
      reflexivity. }
  rewrite G. unfold invoke. cbn [app].
  destruct (solver (img_as_float32 I0) (img_as_float32 I1)
              (zeros_like (img_as_float32 I0))
              (zeros_like (zeros_like (img_as_float32 I0)))) as [msg|[u v]];
    reflexivity.
Qed.

(** X19: for two 2D images of shape (h, w), the default factor and a solver
    that meets its contract, the driver returns a flow whose two components
    have the images' shape, after at most [1 + ceil(log2(min(h, w)))]
    invocations of the solver. *)
Theorem coarse_to_fine_result_shape (I0 I1 : ndarray) (solver : Solver)
  (h w fuel : nat) :
  shape I0 = [h; w] -> shape I1 = [h; w] ->
  solver_contract solver -> Nat.min h w <= fuel ->
  exists log u v,
    coarse_to_fine fuel I0 I1 solver default_downscale
      = (log, Some (inr (u, v))) /\
    shape u = [h; w] /\ shape v = [h; w] /\
    1 <= length log /\ length log <= S (Nat.log2_up (Nat.min h w)).
Proof.
  intros H0 H1 Hc Hf. unfold default_downscale.
  destruct (coarse_to_fine_run solver (fun _ _ => True) Hc
              (fun _ => I) (fun _ _ _ _ _ _ _ _ => I) (fun _ _ _ _ _ _ _ => I)
              I0 I1 h w fuel H0 H1 Hf)
    as (c & pyr & log & u0 & v0 & u & v & E & C & R & Hmap & _ & _ & _ & Su & Sv).
  destruct (get_pyramid_default (img_as_float32 I0) (img_as_float32 I1) h w fuel
              default_min_size H0 H1 ltac:(unfold default_min_size; lia) Hf)
    as (c' & pyr' & E' & _ & (hc & wc & Sc & _) & La).
  rewrite E in E'. injection E' as <- <-.
  eexists _, u, v. split; [exact R|].
  split; [congruence|]. split; [congruence|].
  assert (Sl : same2d (last (c :: pyr) c) h w).
  { rewrite (La c). split; assumption. }
  pose proof (pyramid_chain_length default_min_size pyr
                ltac:(unfold default_min_size; lia) c hc wc c h w C Sc Sl) as B.
  assert (Len : length log = length pyr) by (rewrite <- Hmap, length_map; reflexivity).
  cbn [length] in *. lia.
Qed.

(** *** flow_to_mdlburry_color: the colour wheel *)


Lemma wheel_entries_ok : forallb wheel_entry_ok (seq 0 ncol) = true.
Proof. vm_compute. reflexivity. Qed.

Lemma wheel_entry (k : nat) : k < ncol -> wheel_entry_ok k = true.
Proof.
  intros Hk. pose proof wheel_entries_ok as H.
  rewrite forallb_forall in H. apply H. apply in_seq. lia.
Qed.

Lemma wheel_bounds (k c : nat) :
  k < ncol -> c < 3 -> (0 <= colorWheel k c <= 255)%Z.
Proof.
  intros Hk Hc. pose proof (wheel_entry k Hk) as H.
  unfold wheel_entry_ok in H. apply andb_true_iff in H. destruct H as [H _].
  rewrite forallb_forall in H.
  specialize (H c ltac:(apply in_seq; lia)).
  apply andb_true_iff in H. destruct H as [A B].
  apply Z.leb_le in A. apply Z.leb_le in B. lia.
Qed.

(** X20: the colour wheel has 55 entries; every channel of every entry lies
    in 0..255, and every entry has a channel equal to 255. *)
Theorem color_wheel_entries :
  ncol = 55 /\
  forall k, k < ncol ->
    (forall c, c < 3 -> (0 <= colorWheel k c <= 255)%Z) /\
    (exists c, c < 3 /\ colorWheel k c = 255%Z).
Proof.
  split; [reflexivity|]. intros k Hk. split.
  - intros c Hc. exact (wheel_bounds k c Hk Hc).
  - pose proof (wheel_entry k Hk) as H.
    unfold wheel_entry_ok in H. apply andb_true_iff in H. destruct H as [_ H].
    apply existsb_exists in H. destruct H as (c & Hin & E).
    apply in_seq in Hin. apply Z.eqb_eq in E. exists c. split; [lia|exact E].
Qed.






(** X22: on two grids of one shape (at least two rows and two columns),
    [div] returns at (i, j), for [i >= 1] and [j >= 1], the backward
    difference of [p1] along the row plus that of [p2] along the column;
    in the first column it uses the difference of [p1] taken at column 1,
    and in the first row the difference of [p2] taken at row 1. *)
Theorem div_samples (p1 p2 : ndarray) (nl nc : nat) :
  shape p1 = [nl; nc] -> shape p2 = [nl; nc] -> 2 <= nl -> 2 <= nc ->
  exists d,
    div p1 p2 = inr d /\
    (forall i j, 1 <= i -> 1 <= j ->
       (get2 d i j ==
        (get2 p1 i j - get2 p1 i (j - 1)) + (get2 p2 i j - get2 p2 (i - 1) j))%Q) /\
    (forall i, 1 <= i ->
       (get2 d i 0 ==
        (get2 p1 i 1 - get2 p1 i 0) + (get2 p2 i 0 - get2 p2 (i - 1) 0))%Q) /\
    (forall j, 1 <= j ->
       (get2 d 0 j ==
        (get2 p1 0 j - get2 p1 0 (j - 1)) + (get2 p2 1 j - get2 p2 0 j))%Q) /\
    (get2 d 0 0 == (get2 p1 0 1 - get2 p1 0 0) + (get2 p2 1 0 - get2 p2 0 0))%Q.
Proof.
  intros H1 H2 Hl Hc.
  destruct (div_pointwise p1 p2 nl nc H1 H2 Hl Hc) as (d & E & _ & Hd).
  exists d. split; [exact E|]. repeat split.
  - intros i j Hi Hj. rewrite (Hd i j).
    replace (Nat.max j 1) with j by lia. replace (Nat.max i 1) with i by lia.
    reflexivity.
  - intros i Hi. rewrite (Hd i 0).
    replace (Nat.max i 1) with i by lia. reflexivity.
  - intros j Hj. rewrite (Hd 0 j).
    replace (Nat.max j 1) with j by lia. reflexivity.
  - rewrite (Hd 0 0). reflexivity.
Qed.

End Library.

(** ** The statements at concrete inputs *)

(** C8: a constant 1 x 1 grid, on which [forward_diff] raises IndexError:
    there is no column before the last one to replicate. *)
Lemma forward_diff_single_sample :
  constant_on 1 1 (flat 1 1 5) 5 /\ forward_diff (flat 1 1 5) = inl IndexError.
Proof.
  split; [intros i j _ _; reflexivity|reflexivity].
Qed.

Lemma forward_diff_constant_witness :
  exists p_x p_y,
    forward_diff (flat 2 3 5) = inr (p_x, p_y) /\
    shape p_x = shape (flat 2 3 5) /\ shape p_y = shape (flat 2 3 5) /\
    constant_on 2 3 p_x 0 /\ constant_on 2 3 p_y 0.
Proof.
  apply (forward_diff_constant (flat 2 3 5) 2 3 5);
    [reflexivity | lia | lia | intros i j _ _; reflexivity].
Defined.

(** C1: at the centre (1, 1) of the 3 x 3 image [bump], an interior pixel,
    [warp] with a zero flow returns 1 where the image holds 4. *)
Lemma warp_zero_flow_not_identity :
  exists out,
    warp bump (zeros_like bump) (zeros_like bump) None None = inr out /\
    (get2 out 1 1 == 1)%Q /\ (get2 bump 1 1 == 4)%Q /\
    ~ (get2 out 1 1 == get2 bump 1 1)%Q.
Proof.
  eexists. split; [reflexivity|].
  split; [reflexivity|]. split; [reflexivity|].
  intros H. vm_compute in H. discriminate H.
Qed.

Lemma warp_zero_flow_witness :
  exists out,
    warp bump (zeros_like bump) (zeros_like bump) None None = inr out /\
    shape out = shape bump /\
    (forall i j, i < 3 -> j < 3 ->
       (get2 out i j ==
        (get2 bump (pred i) (pred j) + get2 bump (pred i) j
         + get2 bump i (pred j) + get2 bump i j) / 4)%Q) /\
    (forall c, constant_on 3 3 bump c -> constant_on 3 3 out c).
Proof.
  apply (warp_zero_flow bump (zeros_like bump) (zeros_like bump) 3 3);
    [reflexivity | reflexivity | reflexivity
     | intros i j _ _; reflexivity | intros i j _ _; reflexivity].
Defined.

(** C2: a flow field with no rows, on which [upscale_flow] raises
    ZeroDivisionError instead of returning grids of the target shape. *)
Lemma upscale_flow_empty_field :
  shape empty_grid = [0; 3] /\
  upscale_flow empty_grid empty_grid [2; 2] = inl ZeroDivisionError.
Proof.
  split; reflexivity.
Qed.

Lemma upscale_flow_uniform_witness :
  exists u' v',
    upscale_flow (flat 2 3 5) (flat 2 3 7) [4; 9] = inr (u', v') /\
    shape u' = [4; 9] /\ shape v' = [4; 9] /\
    (constant_on 2 3 (flat 2 3 5) 5 ->
     constant_on 4 9 u' (5 * (inject_Z (Z.of_nat 9) / inject_Z (Z.of_nat 3)))) /\
    (constant_on 2 3 (flat 2 3 7) 7 ->
     constant_on 4 9 v' (7 * (inject_Z (Z.of_nat 4) / inject_Z (Z.of_nat 2)))).
Proof.
  apply (upscale_flow_uniform (flat 2 3 5) (flat 2 3 7) 2 3 4 9 5 7);
    [reflexivity | reflexivity | lia | lia].
Defined.

(** C10: the same empty flow field, rescaled to its own shape. *)
Lemma upscale_flow_same_shape_empty_field :
  upscale_flow empty_grid empty_grid (shape empty_grid) = inl ZeroDivisionError.
Proof.
  reflexivity.
Qed.

Lemma upscale_flow_same_shape_witness :
  exists u' v',
    upscale_flow bump (flat 3 3 7) (shape bump) = inr (u', v') /\
    shape u' = shape bump /\ shape v' = shape (flat 3 3 7) /\
    (forall i j, i < 3 -> j < 3 ->
       (get2 u' i j == get2 bump i j)%Q /\ (get2 v' i j == get2 (flat 3 3 7) i j)%Q).
Proof.
  apply (upscale_flow_same_shape bump (flat 3 3 7) 3 3);
    [reflexivity | reflexivity | lia | lia].
Defined.

(** C3: with [min_size = 0] and 1 x 1 images, no amount of fuel lets
    [get_pyramid] return, whatever the reduced samples are. *)
Lemma get_pyramid_min_size_zero :
  ~ exists sample fuel r,
      get_pyramid sample fuel (flat 1 1 5) (flat 1 1 5) default_downscale 0
        = Some r.
Proof.
  intros (sample & fuel & r & H). unfold default_downscale in H.
  rewrite (get_pyramid_diverges sample (flat 1 1 5) (flat 1 1 5) 1 1 0 fuel) in H;
    [discriminate H | reflexivity | reflexivity | lia | lia | lia].
Qed.

Lemma get_pyramid_levels_witness :
  exists coarsest rest,
    get_pyramid grey_sample 64 (flat 64 48 1) (flat 64 48 1) default_downscale 16
      = Some (inr (coarsest :: rest)) /\
    (forall d, last (coarsest :: rest) d = (flat 64 48 1, flat 64 48 1)) /\
    (exists m, min_shape2 (fst coarsest) = inr m /\ (Z.of_nat m <= 16)%Z) /\
    (forall second rest', rest = second :: rest' ->
       exists m, min_shape2 (fst second) = inr m /\ (16 < Z.of_nat m)%Z).
Proof.
  apply (get_pyramid_levels grey_sample (flat 64 48 1) (flat 64 48 1) 64 48 64 16);
    [reflexivity | reflexivity | lia | apply Nat.le_min_l].
Defined.

(** C9: with [min_size = 0] a reduction need not decrease the size (a 1 x 1
    image is reduced to a 1 x 1 image, and 1 exceeds 0), and [get_pyramid] on
    2 x 2 images returns for no amount of fuel. *)
Lemma reduction_keeps_size_one :
  (exists J,
     pyramid_reduce grey_sample (flat 1 1 5) default_downscale = inr J /\
     min_shape2 (flat 1 1 5) = inr 1 /\ min_shape2 J = inr 1 /\
     (0 < Z.of_nat 1)%Z) /\
  ~ (exists fuel r,
       get_pyramid grey_sample fuel (flat 2 2 5) (flat 2 2 5) default_downscale 0
         = Some r).
Proof.
  split.
  - eexists. split; [reflexivity|]. split; [reflexivity|].
    split; [reflexivity|lia].
  - intros (fuel & r & H). unfold default_downscale in H.
    rewrite (get_pyramid_diverges grey_sample (flat 2 2 5) (flat 2 2 5) 2 2 0 fuel)
      in H; [discriminate H | reflexivity | reflexivity | lia | lia | lia].
Qed.

Lemma get_pyramid_terminates_witness :
  (forall (J : ndarray) (hj wj : nat),
     shape J = [hj; wj] -> (16 < Z.of_nat (Nat.min hj wj))%Z ->
     exists J' m, pyramid_reduce grey_sample J default_downscale = inr J' /\
                  min_shape2 J' = inr m /\ m < Nat.min hj wj) /\
  (forall fuel, Nat.min 64 48 <= fuel ->
     exists pyramid,
       get_pyramid grey_sample fuel (flat 64 48 1) (flat 64 48 1)
                   default_downscale 16 = Some (inr pyramid)) /\
  (forall (downscale : Q) (fuel : nat),
     (Z.of_nat (Nat.min 64 48) <= 16)%Z ->
     get_pyramid grey_sample fuel (flat 64 48 1) (flat 64 48 1) downscale 16
       = Some (inr [(flat 64 48 1, flat 64 48 1)])).
Proof.
  apply (get_pyramid_terminates grey_sample (flat 64 48 1) (flat 64 48 1) 64 48 16);
    [reflexivity | reflexivity | lia].
Defined.

Lemma coarse_to_fine_identity_solver_witness :
  exists log u v,
    coarse_to_fine keep_sample grey_sample 64 (flat 64 64 1) (flat 64 64 1)
                   identity_solver default_downscale
      = (log, Some (inr (u, v))) /\
    shape u = [64; 64] /\ shape v = [64; 64] /\
    constant_on 64 64 u 0 /\ constant_on 64 64 v 0 /\
    Forall (fun c => zero_flow (call_u c) (call_v c)) log.
Proof.
  apply (coarse_to_fine_identity_solver keep_sample grey_sample (flat 64 64 1) 64);
    [reflexivity | apply Nat.le_refl].
Defined.

Lemma shape_mismatch_fails_witness :
  (forall fuel downscale min_size,
     get_pyramid grey_sample fuel (flat 64 64 1) (flat 32 32 1) downscale min_size
       = Some (inl ShapeMismatch)) /\
  (ndim (flat 64 64 1) = 2 -> ndim (flat 32 32 1) = 2 ->
   forall fuel solver downscale,
     coarse_to_fine keep_sample grey_sample fuel (flat 64 64 1) (flat 32 32 1)
                    solver downscale
       = ([], Some (inl ShapeMismatch))).
Proof.
  apply (shape_mismatch_fails keep_sample grey_sample (flat 64 64 1) (flat 32 32 1)).
  cbn. discriminate.
Defined.

Lemma dimensionality_error_witness :
  coarse_to_fine keep_sample grey_sample 0 line (flat 64 64 1) identity_solver
                 default_downscale
    = ([], Some (inl DimensionalityError)) /\
  snd (coarse_to_fine keep_sample grey_sample 64 (flat 64 64 1) (flat 64 64 1)
                      identity_solver default_downscale)
    <> Some (inl DimensionalityError).
Proof.
  split.
  - apply (proj1 (dimensionality_error keep_sample grey_sample line (flat 64 64 1)
                    identity_solver default_downscale 0)).
    left. cbn. discriminate.
  - apply (proj2 (dimensionality_error keep_sample grey_sample (flat 64 64 1)
                    (flat 64 64 1) identity_solver default_downscale 64));
      reflexivity.
Defined.

Lemma coarse_to_fine_invocations_witness :
  exists pyramid log u v,
    get_pyramid grey_sample 64
                (img_as_float32 keep_sample (flat 64 64 1))
                (img_as_float32 keep_sample (flat 64 64 1))
                default_downscale default_min_size = Some (inr pyramid) /\
    pyramid_chain default_downscale default_min_size pyramid /\
    coarse_to_fine keep_sample grey_sample 64 (flat 64 64 1) (flat 64 64 1)
                   identity_solver default_downscale
      = (log, Some (inr (u, v))) /\
    map call_images log = pyramid /\
    (exists first rest,
       log = first :: rest /\
       call_u first = zeros_like (call_I0 first) /\
       call_v first = zeros_like (call_u first)) /\
    linked identity_solver log /\
    (forall d, solve_call identity_solver (last log d) = inr (u, v)).
Proof.
  apply (coarse_to_fine_invocations keep_sample grey_sample (flat 64 64 1)
           (flat 64 64 1) identity_solver 64 64 64);
    [reflexivity | reflexivity | apply identity_solver_contract | apply Nat.le_refl].
Defined.

(** ** The further properties at concrete inputs *)

Lemma forward_diff_samples_witness :
  exists p_x p_y,
    forward_diff steps = inr (p_x, p_y) /\
    (forall i j, S j < 3 -> (get2 p_x i j == get2 steps i j - get2 steps i (S j))%Q) /\
    (forall i, (get2 p_x i (3 - 1) == get2 p_x i (3 - 2))%Q) /\
    (forall i j, S i < 2 -> (get2 p_y i j == get2 steps i j - get2 steps (S i) j)%Q) /\
    (forall j, (get2 p_y (2 - 1) j == get2 p_y (2 - 2) j)%Q).
Proof.
  apply (forward_diff_samples steps 2 3); [reflexivity | lia | lia].
Defined.

Lemma forward_diff_fails_iff_witness :
  (forward_diff (flat 1 1 5) = inl IndexError <-> 1 < 2 \/ 1 < 2) /\
  (forall e, forward_diff (flat 1 1 5) = inl e -> e = IndexError).
Proof.
  apply (forward_diff_fails_iff (flat 1 1 5) 1 1). reflexivity.
Defined.


Lemma div_fails_iff_witness :
  (div (flat 1 3 5) (flat 1 3 7) = inl IndexError <-> 1 < 2 \/ 3 < 2) /\
  (2 <= 1 -> 2 <= 3 ->
   exists d, div (flat 1 3 5) (flat 1 3 7) = inr d /\ shape d = [1; 3]).
Proof.
  apply (div_fails_iff (flat 1 3 5) (flat 1 3 7) 1 3); reflexivity.
Defined.

Lemma div_constant_witness :
  exists d,
    div (flat 2 3 5) (flat 2 3 7) = inr d /\ shape d = shape (flat 2 3 5) /\
    constant_on 2 3 d 0.
Proof.
  apply (div_constant (flat 2 3 5) (flat 2 3 7) 2 3 5 7);
    [reflexivity | reflexivity | lia | lia
     | intros i j _ _; reflexivity | intros i j _ _; reflexivity].
Defined.


Lemma div_samples_witness :
  exists d,
    div steps (flat 2 3 7) = inr d /\
    (forall i j, 1 <= i -> 1 <= j ->
       (get2 d i j ==
        (get2 steps i j - get2 steps i (j - 1))
        + (get2 (flat 2 3 7) i j - get2 (flat 2 3 7) (i - 1) j))%Q) /\
    (forall i, 1 <= i ->
       (get2 d i 0 ==
        (get2 steps i 1 - get2 steps i 0)
        + (get2 (flat 2 3 7) i 0 - get2 (flat 2 3 7) (i - 1) 0))%Q) /\
    (forall j, 1 <= j ->
       (get2 d 0 j ==
        (get2 steps 0 j - get2 steps 0 (j - 1))
        + (get2 (flat 2 3 7) 1 j - get2 (flat 2 3 7) 0 j))%Q) /\
    (get2 d 0 0 ==
     (get2 steps 0 1 - get2 steps 0 0)
     + (get2 (flat 2 3 7) 1 0 - get2 (flat 2 3 7) 0 0))%Q.
Proof.
  apply (div_samples steps (flat 2 3 7) 2 3); [reflexivity | reflexivity | lia | lia].
Defined.



Lemma warp_at_integer_positions_witness :
  exists out,
    warp bump (flat 3 3 0) (flat 3 3 0) (Some (flat 3 3 1)) (Some (flat 3 3 1))
      = inr out /\
    shape out = shape (flat 3 3 1) /\
    (forall ix r c, r < 3 -> c < 3 ->
       (item (flat 3 3 1) ix + item (flat 3 3 0) ix == inject_Z (Z.of_nat r))%Q ->
       (item (flat 3 3 1) ix + item (flat 3 3 0) ix == inject_Z (Z.of_nat c))%Q ->
       (item out ix == get2 bump r c)%Q).
Proof.
  apply (warp_at_integer_positions bump (flat 3 3 0) (flat 3 3 0)
           (flat 3 3 1) (flat 3 3 1) 3 3); reflexivity.
Defined.

Lemma warp_half_pixel_flow_witness :
  exists out,
    warp bump (flat 3 3 (1 # 2)) (flat 3 3 (1 # 2)) None None = inr out /\
    shape out = shape bump /\
    (forall i j, i < 3 -> j < 3 -> (get2 out i j == get2 bump i j)%Q).
Proof.
  apply (warp_half_pixel_flow bump (flat 3 3 (1 # 2)) (flat 3 3 (1 # 2)) 3 3);
    [reflexivity | reflexivity | reflexivity
     | intros i j _ _; reflexivity | intros i j _ _; reflexivity].
Defined.

Lemma upscale_flow_integer_factor_witness :
  exists u' v',
    upscale_flow bump (flat 3 3 7) [2 * 3; 2 * 3] = inr (u', v') /\
    (forall i j, i < 2 * 3 -> j < 2 * 3 ->
       (get2 u' i j == inject_Z (Z.of_nat 2) * get2 bump (i / 2) (j / 2))%Q /\
       (get2 v' i j == inject_Z (Z.of_nat 2) * get2 (flat 3 3 7) (i / 2) (j / 2))%Q).
Proof.
  apply (upscale_flow_integer_factor bump (flat 3 3 7) 3 3 2);
    [reflexivity | reflexivity | lia | lia | lia].
Defined.



Lemma get_pyramid_structure_witness :
  exists pyramid,
    get_pyramid grey_sample 64 (flat 64 48 1) (flat 64 48 1) default_downscale 16
      = Some (inr pyramid) /\
    Forall (fun l => shape (fst l) = shape (snd l) /\ ndim (fst l) = 2) pyramid /\
    (forall k coarse fine,
       nth_error pyramid k = Some coarse ->
       nth_error pyramid (S k) = Some fine ->
       shape (fst coarse) = map (fun d => (d + 1) / 2) (shape (fst fine)) /\
       (exists m, min_shape2 (fst fine) = inr m /\ (16 < Z.of_nat m)%Z)).
Proof.
  apply (get_pyramid_structure grey_sample (flat 64 48 1) (flat 64 48 1) 64 48 64 16);
    [reflexivity | reflexivity | lia | apply Nat.le_min_l].
Defined.

Lemma get_pyramid_length_witness :
  exists pyramid,
    get_pyramid grey_sample 64 (flat 64 48 1) (flat 64 48 1) default_downscale 16
      = Some (inr pyramid) /\
    1 <= length pyramid /\
    length pyramid <= S (Nat.log2_up (Nat.min 64 48)).
Proof.
  apply (get_pyramid_length grey_sample (flat 64 48 1) (flat 64 48 1) 64 48 64 16);
    [reflexivity | reflexivity | lia | apply Nat.le_min_l].
Defined.

Lemma get_pyramid_rejects_factor_witness :
  ((16 < Z.of_nat (Nat.min 64 64))%Z ->
   get_pyramid grey_sample 1 (flat 64 64 1) (flat 64 64 1) 1 16
     = Some (inl (ValueError "scale factor must be greater than 1"))) /\
  ((default_min_size < Z.of_nat (Nat.min 64 64))%Z ->
   forall solver,
     coarse_to_fine keep_sample grey_sample 1 (flat 64 64 1) (flat 64 64 1) solver 1
       = ([], Some (inl (ValueError "scale factor must be greater than 1")))).
Proof.
  apply (get_pyramid_rejects_factor keep_sample grey_sample
           (flat 64 64 1) (flat 64 64 1) 64 64 1 1 16);
    [reflexivity | reflexivity | discriminate | apply Nat.le_refl].
Defined.

Lemma get_pyramid_fixed_point_witness :
  get_pyramid grey_sample 5 (flat 2 2 5) (flat 2 2 5) (3 # 2) 1 = None.
Proof.
  apply (get_pyramid_fixed_point grey_sample (flat 2 2 5) (flat 2 2 5) 2 2 (3 # 2) 1);
    reflexivity.
Defined.

Lemma coarse_to_fine_last_call_witness :
  exists front c,
    [mkcall (img_as_float32 keep_sample (flat 8 8 1))
            (img_as_float32 keep_sample (flat 8 8 1))
            (zeros_like (img_as_float32 keep_sample (flat 8 8 1)))
            (zeros_like (zeros_like (img_as_float32 keep_sample (flat 8 8 1))))]
      = front ++ [c] /\
    solve_call failing_solver c = inl "no convergence"%string /\
    Forall (succeeded failing_solver) front.
Proof.
  apply (proj2 (coarse_to_fine_last_call keep_sample grey_sample 0
                  (flat 8 8 1) (flat 8 8 1) failing_solver 2 _ _ eq_refl)
               "no convergence"%string eq_refl).
Defined.

Lemma coarse_to_fine_single_level_witness :
  coarse_to_fine keep_sample grey_sample 0 (flat 8 8 1) (flat 8 8 1)
                 identity_solver 2 =
  ([mkcall (img_as_float32 keep_sample (flat 8 8 1))
           (img_as_float32 keep_sample (flat 8 8 1))
           (zeros_like (img_as_float32 keep_sample (flat 8 8 1)))
           (zeros_like (zeros_like (img_as_float32 keep_sample (flat 8 8 1))))],
   Some match identity_solver (img_as_float32 keep_sample (flat 8 8 1))
                              (img_as_float32 keep_sample (flat 8 8 1))
                              (zeros_like (img_as_float32 keep_sample (flat 8 8 1)))
                              (zeros_like (zeros_like
                                 (img_as_float32 keep_sample (flat 8 8 1)))) with
        | inl msg => inl (SolverFailure msg)
        | inr uv => inr uv
        end).
Proof.
  apply (coarse_to_fine_single_level keep_sample grey_sample
           (flat 8 8 1) (flat 8 8 1) 8 8);
    [reflexivity | reflexivity | discriminate].
Defined.

Lemma coarse_to_fine_result_shape_witness :
  exists log u v,
    coarse_to_fine keep_sample grey_sample 64 (flat 64 64 1) (flat 64 64 1)
                   identity_solver default_downscale
      = (log, Some (inr (u, v))) /\
    shape u = [64; 64] /\ shape v = [64; 64] /\
    1 <= length log /\ length log <= S (Nat.log2_up (Nat.min 64 64)).
Proof.
  apply (coarse_to_fine_result_shape keep_sample grey_sample (flat 64 64 1)
           (flat 64 64 1) identity_solver 64 64 64);
    [reflexivity | reflexivity | apply identity_solver_contract | apply Nat.le_refl].
Defined.

